(** * hpp-core: time reparameterization, paths, Hermite pieces and the
      recursive Hermite path projector

    A shallow embedding of

    - [src/path.cc]: [timeParameterization::Shift], [Path::derivative],
      [Path::extract], [Path::checkPath], [Path::serialize];
    - [include/hpp/core/path/hermite.hh]: the boundary velocity setters and
      getters of [path::Hermite];
    - [src/path-projector/recursive-hermite.cc]: the constructor,
      [impl_apply], [project] and [recurse] of
      [pathProjector::RecursiveHermite].

    Numbers.  [value_type] is a C++ [double].  It is embedded as an exact
    rational ([Q]): rounding is abstracted away, and IEEE infinities and
    NaN have no counterpart.  Where the source divides by a quantity that
    can be zero at run time, the division is written as a partial
    operation.  Comparisons [a < b] on doubles are the boolean [Qlt_bool].
    The one scalar that the sources compare before any arithmetic is done
    with it, the [beta] of the projector, is embedded as a [double] that
    can also be an infinity or NaN. *)

From Stdlib Require Import QArith Qabs Qpower ZArith List String Bool Lia Lqa.
Import ListNotations.

Set Warnings "-register-all".

Local Open Scope Q_scope.

(* ================================================================== *)
(** ** Scalars, vectors, intervals *)
(* ================================================================== *)

Definition value_type := Q.
Definition size_type := Z.
Definition vector_t := list Q.
Definition Configuration_t := list Q.
Definition interval_t := (value_type * value_type)%type.

Definition Qlt_bool (a b : Q) : bool := negb (Qle_bool b a).

(** A [double] that is compared as it comes from the caller: a number, an
    infinity or NaN.  [double_ltb] is [operator<], false as soon as an
    operand is NaN; [double_scale] is the product with a number. *)
Inductive double : Type :=
| Number (q : Q)
| PlusInfinity
| MinusInfinity
| NaN.

Definition double_ltb (a b : double) : bool :=
  match a, b with
  | NaN, _ | _, NaN => false
  | Number x, Number y => Qlt_bool x y
  | MinusInfinity, MinusInfinity => false
  | MinusInfinity, _ => true
  | _, MinusInfinity => false
  | PlusInfinity, _ => false
  | Number _, PlusInfinity => true
  end.

Definition double_opp (a : double) : double :=
  match a with
  | Number x => Number (- x)
  | PlusInfinity => MinusInfinity
  | MinusInfinity => PlusInfinity
  | NaN => NaN
  end.

Definition double_scale (a : double) (x : Q) : double :=
  match a with
  | Number y => Number (y * x)
  | NaN => NaN
  | PlusInfinity | MinusInfinity =>
      if Qlt_bool 0 x then a
      else if Qlt_bool x 0 then double_opp a
      else NaN
  end.

(** Coefficient-wise operations of Eigen used by the sources. *)
Definition vscale (v : vector_t) (k : Q) : vector_t := map (fun x => x * k) v.
Definition vdiv (v : vector_t) (k : Q) : vector_t := map (fun x => x / k) v.
Definition lscale (k : Q) (v : vector_t) : vector_t := map (fun x => k * x) v.

Fixpoint vzip (f : Q -> Q -> Q) (a b : vector_t) : vector_t :=
  match a, b with
  | x :: a', y :: b' => f x y :: vzip f a' b'
  | _, _ => []
  end.

Definition vadd : vector_t -> vector_t -> vector_t := vzip Qplus.
Definition vsub : vector_t -> vector_t -> vector_t := vzip Qminus.

(** Equality of vectors up to equality of fractions. *)
Definition veq (a b : vector_t) : Prop := Forall2 Qeq a b.

(** [interval_t] equality, [operator==] on [std::pair<double,double>]. *)
Definition interval_eqb (a b : interval_t) : bool :=
  Qeq_bool (fst a) (fst b) && Qeq_bool (snd a) (snd b).

(* ================================================================== *)
(** ** Results of fallible code *)
(* ================================================================== *)

(** The standard exceptions thrown by the sources.  [std::invalid_argument]
    derives from [std::logic_error]. *)
Inductive exception : Type :=
| invalid_argument (what : string)
| logic_error (what : string)
| runtime_error (what : string)
| projection_error.

Definition is_logic_error (e : exception) : bool :=
  match e with
  | invalid_argument _ | logic_error _ => true
  | _ => false
  end.

(** Behaviours that leave the embedding: dereferencing an empty shared
    pointer, reading past the end of a container, a division by zero whose
    IEEE result is not a rational. *)
Inductive fault : Type :=
| null_pointer
| out_of_range
| non_finite.

Inductive outcome (A : Type) : Type :=
| Ret (a : A)
| Throw (e : exception)
| Fault (f : fault)
| OutOfFuel.

Arguments Ret {A} a.
Arguments Throw {A} e.
Arguments Fault {A} f.
Arguments OutOfFuel {A}.

Definition bind {A B : Type} (c : outcome A) (k : A -> outcome B) : outcome B :=
  match c with
  | Ret a => k a
  | Throw e => Throw e
  | Fault f => Fault f
  | OutOfFuel => OutOfFuel
  end.

Notation "x <- c ;; k" := (bind c (fun x => k))
  (at level 61, c at next level, right associativity).
Notation "' p <- c ;; k" := (bind c (fun p => k))
  (at level 61, p pattern, c at next level, right associativity).

Definition returns {A : Type} (c : outcome A) : bool :=
  match c with Ret _ => true | _ => false end.

(* ================================================================== *)
(** ** Time parameterization ([src/path.cc], lines 48-90) *)
(* ================================================================== *)

Module timeParameterization.

(** A [TimeParameterization] is either one of the concrete classes defined
    outside [path.cc], seen through its virtual [value] and [derivative],
    or the file-local wrapper [Shift] with its members [tp_], [t_], [s_]. *)
Inductive TimeParameterization : Type :=
| Concrete (value : value_type -> value_type)
           (derivative : value_type -> size_type -> value_type)
| Shift (tp_ : TimeParameterization) (t_ s_ : value_type).

(** [HPP_DYNAMIC_PTR_CAST(Shift, tp)] succeeds. *)
Definition is_Shift (tp : TimeParameterization) : bool :=
  match tp with Shift _ _ _ => true | Concrete _ _ => false end.

Fixpoint value (tp : TimeParameterization) (t : value_type) : value_type :=
  match tp with
  | Concrete f _ => f t
  | Shift tp_ t_ s_ => value tp_ (t + t_) + s_
  end.

Fixpoint derivative (tp : TimeParameterization) (t : value_type)
         (order : size_type) : value_type :=
  match tp with
  | Concrete _ d => d t order
  | Shift tp_ t_ _ => derivative tp_ (t + t_) order
  end.

(** [Shift::create] *)
Definition create (tp : TimeParameterization) (t s : value_type)
  : TimeParameterization :=
  match tp with
  | Shift tp_ t_ s_ => Shift tp_ (t_ + t) (s_ + s)
  | Concrete _ _ => Shift tp t s
  end.

(** [Shift::createWithCheck] *)
Definition createWithCheck (tp : TimeParameterization) (t s : value_type)
  : TimeParameterization :=
  if Qeq_bool t 0 && Qeq_bool s 0 then tp else create tp t s.

(** [copy]: [Shift::copy] rebuilds through [create]; a concrete
    parameterization is immutable and its copy is an equal object. *)
Fixpoint copy (tp : TimeParameterization) : TimeParameterization :=
  match tp with
  | Concrete f d => Concrete f d
  | Shift tp_ t_ s_ => create (copy tp_) t_ s_
  end.

(** Number of [Shift] wrappers stacked at the top of an object. *)
Fixpoint depth (tp : TimeParameterization) : nat :=
  match tp with
  | Concrete _ _ => 0
  | Shift tp_ _ _ => S (depth tp_)
  end.

(** Normal form: at most one [Shift], never a [Shift] around a [Shift]. *)
Definition canonical (tp : TimeParameterization) : bool :=
  (depth tp <=? 1)%nat.

(** The objects the program can hold.  [Shift] is local to [path.cc] and
    its constructor is called at lines 65 and 67 only, inside [create]:
    every [Shift] is a result of [create], applied to a concrete
    parameterization or to such a result; [createWithCheck] and [copy]
    build through [create]. *)
Inductive built : TimeParameterization -> Prop :=
| built_Concrete (value : value_type -> value_type)
                 (derivative : value_type -> size_type -> value_type) :
    built (Concrete value derivative)
| built_create (tp : TimeParameterization) (t s : value_type) :
    built tp -> built (create tp t s).

End timeParameterization.

Abbreviation TimeParameterization := timeParameterization.TimeParameterization.

(* ================================================================== *)
(** ** Constraints ([include/hpp/core/config-projector.hh]) *)
(* ================================================================== *)

(** The members of [ConfigProjector] read by the path code: the error
    threshold and the constraint dimension. *)
Record ConfigProjector : Type := {
  errorThreshold : value_type;
  dimension : size_type
}.

(** A [ConstraintSet] as the path code sees it.  [isSatisfied] is the
    virtual test at the current right hand side; [isSatisfiedAt s] is the
    same test once [ConfigProjector::rightHandSideAt(s)] has been called;
    the right hand side itself is not tracked. *)
Record ConstraintSet : Type := {
  name : string;
  configProjector : option ConfigProjector;
  isSatisfied : Configuration_t -> bool;
  isSatisfiedAt : value_type -> Configuration_t -> bool
}.

(* ================================================================== *)
(** ** Paths *)
(* ================================================================== *)

(** Data members of the base class [Path] ([src/path.cc], constructors at
    lines 93-140). *)
Record Path : Type := {
  paramRange_ : interval_t;
  timeRange_ : interval_t;
  outputSize_ : size_type;
  outputDerivativeSize_ : size_type;
  constraints_ : option ConstraintSet;
  timeParam_ : option TimeParameterization
}.

(** Constructor with constraints, [Path::Path(interval, outputSize,
    outputDerivativeSize, constraints)]: the constraint set is copied. *)
Definition Path_ctor (interval : interval_t) (outputSize outputDerivativeSize : size_type)
  (constraints : option ConstraintSet) : Path :=
  {| paramRange_ := interval;
     timeRange_ := interval;
     outputSize_ := outputSize;
     outputDerivativeSize_ := outputDerivativeSize;
     constraints_ := constraints;
     timeParam_ := None |}.

Arguments Path_ctor interval (outputSize outputDerivativeSize)%_Z constraints.

(** [path::Hermite] ([include/hpp/core/path/hermite.hh]): a cubic spline in
    the Bernstein basis.  [parameters_] is the 4-row control point matrix of
    [Spline<BernsteinBasis, 3>], one row per control point. *)
Record Hermite : Type := {
  hermite_base : Path;
  parameters_ : list vector_t;
  init_ : Configuration_t;
  end_ : Configuration_t;
  hermiteLength_ : value_type
}.

(** The dynamic types of a [PathPtr_t] that [RecursiveHermite] tells apart
    with [HPP_DYNAMIC_PTR_CAST]: [path::Hermite], [InterpolatedPath] (with
    its [std::map] of interpolation points, in increasing time),
    [PathVector] (with its [paths_]), and any other concrete class, seen
    through its [initial()] and [end()]. *)
Inductive PathPtr_t : Type :=
| HermitePtr (h : Hermite)
| InterpolatedPathPtr (base : Path)
    (interpolationPoints : list (value_type * Configuration_t))
| PathVectorPtr (base : Path) (paths_ : list PathPtr_t)
| OtherPathPtr (base : Path) (q_initial q_end : Configuration_t).

Definition base_of (p : PathPtr_t) : Path :=
  match p with
  | HermitePtr h => hermite_base h
  | InterpolatedPathPtr b _ => b
  | PathVectorPtr b _ => b
  | OtherPathPtr b _ _ => b
  end.

Definition set_base (p : PathPtr_t) (b : Path) : PathPtr_t :=
  match p with
  | HermitePtr h =>
      HermitePtr {| hermite_base := b; parameters_ := parameters_ h;
                    init_ := init_ h; end_ := end_ h;
                    hermiteLength_ := hermiteLength_ h |}
  | InterpolatedPathPtr _ ips => InterpolatedPathPtr b ips
  | PathVectorPtr _ ps => PathVectorPtr b ps
  | OtherPathPtr _ qi qe => OtherPathPtr b qi qe
  end.

(** Inline accessors of [path.hh]. *)
Definition timeRange (p : Path) : interval_t := timeRange_ p.
Definition paramRange (p : Path) : interval_t := paramRange_ p.
Definition constraints (p : Path) : option ConstraintSet := constraints_ p.
Definition outputSize (p : Path) : size_type := outputSize_ p.
Definition outputDerivativeSize (p : Path) : size_type := outputDerivativeSize_ p.

(** Modelled from the spec: [Path::length] is declared in [path.hh], which is
    not part of the sources at hand; it is the length of [timeRange]. *)
Definition length (p : Path) : value_type :=
  snd (timeRange_ p) - fst (timeRange_ p).

(** Modelled from the spec: [Path::timeRange(interval)] and
    [Path::timeParameterization(tp, interval)] of [path.hh].  The spec's
    invariant is that [paramRange] is always the image of [timeRange] under
    the time parameterization, the identity when there is none. *)
Definition set_timeRange (p : Path) (tr : interval_t) : Path :=
  {| paramRange_ :=
       match timeParam_ p with
       | Some tp => (timeParameterization.value tp (fst tr),
                     timeParameterization.value tp (snd tr))
       | None => tr
       end;
     timeRange_ := tr;
     outputSize_ := outputSize_ p;
     outputDerivativeSize_ := outputDerivativeSize_ p;
     constraints_ := constraints_ p;
     timeParam_ := timeParam_ p |}.

Definition set_timeParameterization (p : Path) (tp : TimeParameterization)
  (tr : interval_t) : Path :=
  set_timeRange
    {| paramRange_ := paramRange_ p;
       timeRange_ := timeRange_ p;
       outputSize_ := outputSize_ p;
       outputDerivativeSize_ := outputDerivativeSize_ p;
       constraints_ := constraints_ p;
       timeParam_ := Some tp |} tr.

(** [initial()] and [end()], as [Path_initial] and [Path_end].  Modelled from the spec for [PathVector]: they
    are the first piece's initial and the last piece's end configuration
    ([path-vector.hh] is not part of the sources at hand); an empty
    [PathVector] has neither.  An [InterpolatedPath] starts and ends at its
    first and last interpolation point. *)
Fixpoint Path_initial (p : PathPtr_t) : option Configuration_t :=
  match p with
  | HermitePtr h => Some (init_ h)
  | InterpolatedPathPtr _ ips =>
      match ips with
      | [] => None
      | (_, q) :: _ => Some q
      end
  | PathVectorPtr _ ps =>
      match ps with
      | [] => None
      | p0 :: _ => Path_initial p0
      end
  | OtherPathPtr _ qi _ => Some qi
  end.

Fixpoint Path_end (p : PathPtr_t) : option Configuration_t :=
  match p with
  | HermitePtr h => Some (end_ h)
  | InterpolatedPathPtr _ ips =>
      match rev ips with
      | [] => None
      | (_, q) :: _ => Some q
      end
  | PathVectorPtr _ ps =>
      (fix last_end (l : list PathPtr_t) : option Configuration_t :=
         match l with
         | [] => None
         | [p0] => Path_end p0
         | _ :: l' => last_end l'
         end) ps
  | OtherPathPtr _ _ qe => Some qe
  end.

(* ================================================================== *)
(** ** Hermite boundary velocities
       ([include/hpp/core/path/hermite.hh], lines 122-140) *)
(* ================================================================== *)

(** [parameters_.row(i)] and the assignment [parameters_.row(i) = v]. *)
Definition row (h : Hermite) (i : nat) : vector_t := nth i (parameters_ h) [].

Fixpoint set_row (i : nat) (v : vector_t) (m : list vector_t) : list vector_t :=
  match m, i with
  | [], _ => []
  | _ :: m', O => v :: m'
  | r :: m', S i' => r :: set_row i' v m'
  end.

(** [timeRange().second - timeRange().first] of a Hermite path. *)
Definition Hermite_span (h : Hermite) : value_type :=
  snd (timeRange (hermite_base h)) - fst (timeRange (hermite_base h)).

(** [void v0(const vectorIn_t& speed)] *)
Definition set_v0 (h : Hermite) (speed : vector_t) : Hermite :=
  {| hermite_base := hermite_base h;
     parameters_ :=
       set_row 1 (vscale (vdiv speed 3) (Hermite_span h)) (parameters_ h);
     init_ := init_ h;
     end_ := end_ h;
     hermiteLength_ := -1 |}.

(** [void v1(const vectorIn_t& speed)] *)
Definition set_v1 (h : Hermite) (speed : vector_t) : Hermite :=
  {| hermite_base := hermite_base h;
     parameters_ :=
       set_row 2 (vsub (row h 3) (vscale (vdiv speed 3) (Hermite_span h)))
               (parameters_ h);
     init_ := init_ h;
     end_ := end_ h;
     hermiteLength_ := -1 |}.

(** Division of a vector by a run-time scalar: with a zero divisor every
    coefficient is an IEEE infinity or NaN. *)
Definition vdiv_checked (v : vector_t) (k : value_type) : outcome vector_t :=
  match v with
  | [] => Ret []
  | _ :: _ => if Qeq_bool k 0 then Fault non_finite else Ret (vdiv v k)
  end.

(** [vector_t v0() const] *)
Definition v0 (h : Hermite) : outcome vector_t :=
  vdiv_checked (lscale 3 (vsub (row h 1) (row h 0))) (Hermite_span h).

(** [vector_t v1() const] *)
Definition v1 (h : Hermite) : outcome vector_t :=
  vdiv_checked (lscale 3 (vsub (row h 3) (row h 2))) (Hermite_span h).

(** What the constructor of lines 179-193 establishes about the control
    points: four rows of [nv] coefficients, the first of which is zero
    ([parameters_.row(0).setZero()]); the setters write rows 1 and 2 only. *)
Definition Hermite_wf (nv : nat) (h : Hermite) : Prop :=
  List.length (parameters_ h) = 4%nat /\
  Forall (fun r => List.length r = nv) (parameters_ h) /\
  Forall (fun x => x == 0) (row h 0).

(* ================================================================== *)
(** ** Collaborators defined outside the sources at hand *)
(* ================================================================== *)

(** Virtual member functions and helpers whose bodies live in files that are
    not part of the sources at hand ([hermite.cc], [path.hh],
    [extracted-path.hh], [steering-method/hermite.hh], [path-projector.cc]).
    They are parameters of the development.

    - [steer cs q1 q2]: [PathProjector::steer(q1, q2)] when the steering
      method holds the constraints [cs]; [None] is an empty pointer;
    - [impl_compute_with_timeRange]: the time-range variant of the Hermite
      steering method;
    - [eval h t]: [Path::eval(t, success)], the configuration and the flag;
    - [velocity h t]: [Hermite::velocity(t)];
    - [hermiteLengthOf h]: the value [Hermite::computeHermiteLength] stores
      in [hermiteLength_];
    - [impl_extract], [impl_derivative]: the virtual functions of [Path]. *)
Record Collaborators : Type := {
  steer : option ConstraintSet -> Configuration_t -> Configuration_t ->
          option PathPtr_t;
  impl_compute_with_timeRange :
    option ConstraintSet -> Configuration_t -> Configuration_t ->
    interval_t -> option PathPtr_t;
  eval : Hermite -> value_type -> Configuration_t * bool;
  velocity : Hermite -> value_type -> vector_t;
  hermiteLengthOf : Hermite -> value_type;
  impl_extract : PathPtr_t -> interval_t -> PathPtr_t;
  impl_derivative : PathPtr_t -> value_type -> size_type -> vector_t
}.

(** [void Hermite::computeHermiteLength()] *)
Definition computeHermiteLength (E : Collaborators) (h : Hermite) : Hermite :=
  {| hermite_base := hermite_base h;
     parameters_ := parameters_ h;
     init_ := init_ h;
     end_ := end_ h;
     hermiteLength_ := hermiteLengthOf E h |}.

(** [HPP_DYNAMIC_PTR_CAST(Hermite, p)] *)
Definition cast_Hermite (p : option PathPtr_t) : option Hermite :=
  match p with
  | Some (HermitePtr h) => Some h
  | _ => None
  end.

(* ================================================================== *)
(** ** [Path] member functions ([src/path.cc]) *)
(* ================================================================== *)

(** [Path::derivative], lines 153-178. *)
Definition derivative (E : Collaborators) (p : PathPtr_t) (time : value_type)
  (order : size_type) : outcome vector_t :=
  match timeParam_ (base_of p) with
  | Some tp =>
      match order with
      | 1%Z =>
          let result := impl_derivative E p (timeParameterization.value tp time) 1%Z in
          Ret (vscale result (timeParameterization.derivative tp time 1%Z))
      | 2%Z =>
          let tmp := impl_derivative E p (timeParameterization.value tp time) 2%Z in
          let der := timeParameterization.derivative tp time 1%Z in
          let result := vscale tmp (der * der) in
          let tmp := impl_derivative E p (timeParameterization.value tp time) 1%Z in
          Ret (vadd result (vscale tmp (timeParameterization.derivative tp time 2%Z)))
      | _ =>
          Throw (invalid_argument
                   "Cannot compute the derivative of order greater than 2.")
      end
  | None => Ret (impl_derivative E p time order)
  end.

(** The local variables [shift_t], [shift_s] and [timeInterval] of
    [Path::extract], lines 189-215, from the sub-interval, the parameter
    interval and the lower parameter bound of the extracted path. *)
Definition extract_shift (subInterval paramInterval : interval_t)
  (res_paramRange_first : value_type) : value_type * value_type * interval_t :=
  if Qlt_bool (snd subInterval) (fst subInterval) then
    let shift_s := res_paramRange_first - snd paramInterval in
    if negb (Qeq_bool shift_s 0) then
      (snd subInterval, shift_s, (0, fst subInterval - snd subInterval))
    else
      (0, shift_s, (snd subInterval, fst subInterval))
  else
    let shift_s := res_paramRange_first - fst paramInterval in
    if negb (Qeq_bool shift_s 0) then
      (fst subInterval, shift_s, (0, snd subInterval - fst subInterval))
    else
      (0, shift_s, subInterval).

(** The object built at line 216,
    [Shift::createWithCheck(timeParam_, shift_t, shift_s)].  The statement
    does not bind its value. *)
Definition extract_shifted_timeParam (E : Collaborators) (p : PathPtr_t)
  (subInterval : interval_t) : option TimeParameterization :=
  match timeParam_ (base_of p) with
  | Some tp =>
      let paramInterval := (timeParameterization.value tp (fst subInterval),
                            timeParameterization.value tp (snd subInterval)) in
      let res := impl_extract E p paramInterval in
      let '(shift_t, shift_s, _) :=
        extract_shift subInterval paramInterval
                      (fst (paramRange (base_of res))) in
      Some (timeParameterization.createWithCheck tp shift_t shift_s)
  | None => None
  end.

(** [Path::extract], lines 180-226. *)
Definition extract (E : Collaborators) (p : PathPtr_t) (subInterval : interval_t)
  : PathPtr_t :=
  match timeParam_ (base_of p) with
  | Some tp =>
      let paramInterval := (timeParameterization.value tp (fst subInterval),
                            timeParameterization.value tp (snd subInterval)) in
      let res := impl_extract E p paramInterval in
      let '(_, _, timeInterval) :=
        extract_shift subInterval paramInterval
                      (fst (paramRange (base_of res))) in
      set_base res
        (set_timeParameterization (base_of res)
           (timeParameterization.copy tp) timeInterval)
  | None => impl_extract E p subInterval
  end.

(** The parameter range [pr] saved at line 218, before the time
    parameterization is attached, and the assertion of line 221,
    [assert(pr == res->paramRange())]. *)
Definition extract_pr (E : Collaborators) (p : PathPtr_t)
  (subInterval : interval_t) : interval_t :=
  match timeParam_ (base_of p) with
  | Some tp =>
      paramRange (base_of (impl_extract E p
        (timeParameterization.value tp (fst subInterval),
         timeParameterization.value tp (snd subInterval))))
  | None => paramRange (base_of (impl_extract E p subInterval))
  end.

Definition extract_assertion (E : Collaborators) (p : PathPtr_t)
  (subInterval : interval_t) : bool :=
  interval_eqb (extract_pr E p subInterval)
               (paramRange (base_of (extract E p subInterval))).

(** [Path::reverse], lines 233-238. *)
Definition reverse (E : Collaborators) (p : PathPtr_t) : PathPtr_t :=
  extract E p (snd (timeRange_ (base_of p)), fst (timeRange_ (base_of p))).

(** Dereferencing the result of a call that has no value. *)
Definition deref {A : Type} (o : option A) : outcome A :=
  match o with
  | Some a => Ret a
  | None => Fault null_pointer
  end.

(** [Path::checkPath], lines 240-275: returns, or throws
    [projection_error]. *)
Definition checkPath (p : PathPtr_t) : outcome unit :=
  match constraints (base_of p) with
  | None => Ret tt
  | Some cs =>
      let satisfied (s : value_type) :=
        match configProjector cs with
        | Some _ => isSatisfiedAt cs s
        | None => isSatisfied cs
        end in
      qi <- deref (Path_initial p) ;;
      if negb (satisfied (fst (paramRange_ (base_of p))) qi)
      then Throw projection_error
      else
        qe <- deref (Path_end p) ;;
        if negb (satisfied (snd (paramRange_ (base_of p))) qe)
        then Throw projection_error
        else Ret tt
  end.

(** *** Serialization ([Path::serialize], lines 286-302) *)

(** The name-value pairs that [Path::serialize] exchanges with a boost
    archive, and an archive as the sequence of pairs it holds.  [is_saving]
    is [Archive::is_saving::value]. *)
Inductive nvp : Type :=
| nvp_timeRange (v : interval_t)
| nvp_outputSize (v : size_type)
| nvp_outputDerivativeSize (v : size_type)
| nvp_constraints (v : option ConstraintSet)
| nvp_weak.

Record Archive : Type := {
  is_saving : bool;
  content : list nvp
}.

Definition archive_put (ar : Archive) (x : nvp) : Archive :=
  {| is_saving := is_saving ar; content := content ar ++ [x] |}.

(** [ar & BOOST_SERIALIZATION_NVP(member)] on a loading archive: the next
    pair, or the archive's own exception when there is none. *)
Definition archive_get (ar : Archive) : outcome (nvp * Archive) :=
  match content ar with
  | x :: rest => Ret (x, {| is_saving := is_saving ar; content := rest |})
  | [] => Throw (runtime_error "input stream error")
  end.

Definition serialize_save (p : Path) (ar : Archive) : outcome (Path * Archive) :=
  let ar := archive_put ar (nvp_timeRange (timeRange_ p)) in
  let ar := archive_put ar (nvp_outputSize (outputSize_ p)) in
  let ar := archive_put ar (nvp_outputDerivativeSize (outputDerivativeSize_ p)) in
  let ar := archive_put ar (nvp_constraints (constraints_ p)) in
  match timeParam_ p with
  | Some _ =>
      Throw (logic_error
               "At the moment, it is not possible to serialize a Path with time parameterization.")
  | None => Ret (p, archive_put ar nvp_weak)
  end.

Definition serialize_load (p : Path) (ar : Archive) : outcome (Path * Archive) :=
  '(x1, ar) <- archive_get ar ;;
  '(x2, ar) <- archive_get ar ;;
  '(x3, ar) <- archive_get ar ;;
  '(x4, ar) <- archive_get ar ;;
  match x1, x2, x3, x4 with
  | nvp_timeRange tr, nvp_outputSize n, nvp_outputDerivativeSize nd,
    nvp_constraints cs =>
      let p := {| paramRange_ := paramRange_ p;
                  timeRange_ := tr;
                  outputSize_ := n;
                  outputDerivativeSize_ := nd;
                  constraints_ := cs;
                  timeParam_ := timeParam_ p |} in
      let p := set_timeRange p (timeRange_ p) in
      '(_, ar) <- archive_get ar ;;
      Ret (p, ar)
  | _, _, _, _ => Throw (runtime_error "input stream error")
  end.

(** [template <class Archive> void Path::serialize(Archive& ar, version)] *)
Definition serialize (p : Path) (ar : Archive) : outcome (Path * Archive) :=
  if is_saving ar then serialize_save p ar else serialize_load p ar.

(* ================================================================== *)
(** ** Path sequences *)
(* ================================================================== *)

(** Modelled from the spec: [PathVector] ([path-vector.hh] and
    [path-vector.cc] are not part of the sources at hand) is an ordered
    sequence of pieces; [appendPath] adds a piece at the end and extends the
    time range by its length, [concatenate] appends every piece of another
    sequence in order. *)
Record PathVector : Type := {
  pv_base : Path;
  pv_paths : list PathPtr_t
}.

Definition PathVector_create (outputSize outputDerivativeSize : size_type)
  : PathVector :=
  {| pv_base := Path_ctor (0, 0) outputSize outputDerivativeSize None;
     pv_paths := [] |}.

Arguments PathVector_create (outputSize outputDerivativeSize)%_Z.

Definition appendPath (pv : PathVector) (p : PathPtr_t) : PathVector :=
  {| pv_base :=
       set_timeRange (pv_base pv)
         (fst (timeRange_ (pv_base pv)),
          snd (timeRange_ (pv_base pv)) + length (base_of p));
     pv_paths := pv_paths pv ++ [p] |}.

Definition concatenate (pv r : PathVector) : PathVector :=
  fold_left appendPath (pv_paths r) pv.

Definition numberPaths (pv : PathVector) : nat := List.length (pv_paths pv).

Definition pathAtRank (pv : PathVector) (i : nat) : option PathPtr_t :=
  nth_error (pv_paths pv) i.

Definition PathVector_ptr (pv : PathVector) : PathPtr_t :=
  PathVectorPtr (pv_base pv) (pv_paths pv).

(* ================================================================== *)
(** ** The recursive Hermite path projector
       ([src/path-projector/recursive-hermite.cc]) *)
(* ================================================================== *)

(** The sources at hand hold three states of [recursive-hermite.cc]:
    - [RevA]: [src/path-projector/recursive-hermite.cc], lines 1-272.
      Pieces are steered over the steering method's own time range, the
      bisection parameter is [0.5] and velocities are halved;
    - [RevB]: the same file, lines 273-614.  Pieces are steered over
      explicit time ranges; [impl_apply] ends with [proj->checkPath()];
      the acceptance threshold is computed as [2 * errorThreshold / 2];
    - [RevC]: [src/path.cc], lines 307-605.  As [RevB], without the final
      [checkPath] and with the threshold [2 * errorThreshold / M_].
    The definitions below take the revision as an argument and branch on it
    exactly where the three texts differ. *)
Inductive revision : Type := RevA | RevB | RevC.

(** The steering method as the projector uses it: whether its dynamic type
    is [steeringMethod::Hermite]. *)
Record SteeringMethod : Type := {
  is_steeringMethod_Hermite : bool
}.

Record RecursiveHermite : Type := {
  steeringMethod_ : SteeringMethod;
  M_ : value_type;
  beta_ : double;
  interpolationTimes_ : vector_t
}.


(** [RecursiveHermite::steer_with_timeRange] ([src/path.cc], lines 401-404). *)
Definition steer_with_timeRange (E : Collaborators) (cs : option ConstraintSet)
  (q1 q2 : Configuration_t) (timeRange : interval_t) : option PathPtr_t :=
  impl_compute_with_timeRange E cs q1 q2 timeRange.

(** [const value_type thr = ...] in [project]: line 130 ([RevA]), line 444
    ([RevB]), [src/path.cc] line 463 ([RevC]).  This is the quotient as a
    rational; [project] obtains it through [project_thr_checked], which
    keeps a zero [M_] apart. *)
Definition project_thr (rev : revision) (rh : RecursiveHermite)
  (cp : ConfigProjector) : value_type :=
  match rev with
  | RevA | RevC => 2 * errorThreshold cp / M_ rh
  | RevB => 2 * errorThreshold cp / 2
  end.

(** The threshold as [project] computes it.  In [RevA] and [RevC] the
    divisor is the member [M_], which the constructor does not constrain:
    when it is zero the quotient of two doubles is an infinity or NaN, not
    a rational. *)
Definition project_thr_checked (rev : revision) (rh : RecursiveHermite)
  (cp : ConfigProjector) : outcome value_type :=
  match rev with
  | RevA | RevC =>
      if Qeq_bool (M_ rh) 0 then Fault non_finite
      else Ret (project_thr rev rh cp)
  | RevB => Ret (project_thr rev rh cp)
  end.

(** The bisection parameter [t] of [recurse]: line 227 ([RevA]), line 566
    ([RevB] and [RevC]). *)
Definition recurse_t (rev : revision) (path : Hermite) : value_type :=
  match rev with
  | RevA => 1 # 2
  | RevB | RevC =>
      fst (timeRange (hermite_base path)) + length (hermite_base path) / 2
  end.

(** [const vector_t vHalf]: line 238 ([RevA]), line 578 ([RevB], [RevC]). *)
Definition recurse_vHalf (rev : revision) (E : Collaborators) (path : Hermite)
  : vector_t :=
  match rev with
  | RevA => vdiv (velocity E path (recurse_t rev path)) 2
  | RevB | RevC => velocity E path (recurse_t rev path)
  end.

(** The velocity handed to the outer setter of a child: [path->v0() / 2]
    and [path->v1() / 2] in [RevA], [path->v0()] and [path->v1()] in [RevB]
    and [RevC]. *)
Definition recurse_outer (rev : revision) (v : vector_t) : vector_t :=
  match rev with
  | RevA => vdiv v 2
  | RevB | RevC => v
  end.

(** [HPP_DYNAMIC_PTR_CAST(Hermite, steer...)] followed by
    [if (!left) throw std::runtime_error("Not an path::Hermite")]. *)
Definition steer_child (rev : revision) (E : Collaborators)
  (cs : option ConstraintSet) (qa qb : Configuration_t) (tr : interval_t)
  : outcome Hermite :=
  match cast_Hermite
          match rev with
          | RevA => steer E cs qa qb
          | RevB | RevC => steer_with_timeRange E cs qa qb tr
          end
  with
  | Some h => Ret h
  | None => Throw (runtime_error "Not an path::Hermite")
  end.

(** The two children built by [recurse] between the midpoint evaluation and
    the stopping test: lines 234-250 ([RevA]), 573-592 ([RevB], [RevC]). *)
Definition recurse_children (rev : revision) (E : Collaborators)
  (cs : option ConstraintSet) (path : Hermite) (q1 : Configuration_t)
  : outcome (Hermite * Hermite) :=
  let t := recurse_t rev path in
  let q0 := init_ path in
  let q2 := end_ path in
  let vHalf := recurse_vHalf rev E path in
  left_ <- steer_child rev E cs q0 q1 (fst (timeRange (hermite_base path)), t) ;;
  pv0 <- v0 path ;;
  let left_ := set_v0 left_ (recurse_outer rev pv0) in
  let left_ := set_v1 left_ vHalf in
  let left_ := computeHermiteLength E left_ in
  right_ <- steer_child rev E cs q1 q2 (t, snd (timeRange (hermite_base path))) ;;
  let right_ := set_v0 right_ vHalf in
  pv1 <- v1 path ;;
  let right_ := set_v1 right_ (recurse_outer rev pv1) in
  let right_ := computeHermiteLength E right_ in
  Ret (left_, right_).

(** [child->hermiteLength() > stopThr] with
    [stopThr = beta_ * path->hermiteLength()] (lines 252-254). *)
Definition exceeds_stopThr (rh : RecursiveHermite) (path child : Hermite)
  : bool :=
  let stopThr := double_scale (beta_ rh) (hermiteLength_ path) in
  double_ltb stopThr (Number (hermiteLength_ child)).

(** The result of [recurse]: the returned flag and the pieces held by the
    output [PathVector] when it returns. *)
Definition recursion :=
  Hermite -> PathVector -> value_type -> outcome (bool * PathVector).

(** One activation of [RecursiveHermite::recurse] (lines 218-269), the
    recursive calls being made through [self]. *)
Definition recurse_body (rev : revision) (E : Collaborators)
  (rh : RecursiveHermite) (cs : option ConstraintSet) (self : recursion)
  : recursion :=
  fun path proj acceptThr =>
  if Qlt_bool (hermiteLength_ path) acceptThr then
    Ret (true, appendPath proj (HermitePtr path))
  else
    let t := recurse_t rev path in
    let '(q1, success) := eval E path t in
    if negb success then Ret (false, proj)
    else
      '(left_, right_) <- recurse_children rev E cs path q1 ;;
      let lStop := exceeds_stopThr rh path left_ in
      let rStop := exceeds_stopThr rh path right_ in
      let stop := rStop || lStop in
      if lStop then Ret (false, proj)
      else
        '(okl, proj) <- self left_ proj acceptThr ;;
        if negb okl then Ret (false, proj)
        else if stop then Ret (false, proj)
        else
          '(okr, proj) <- self right_ proj acceptThr ;;
          if negb okr then Ret (false, proj)
          else Ret (true, proj).

(** [RecursiveHermite::recurse].  The source recursion has no depth bound;
    [fuel] bounds the nesting of activations. *)
Fixpoint recurse (fuel : nat) (rev : revision) (E : Collaborators)
  (rh : RecursiveHermite) (cs : option ConstraintSet) : recursion :=
  match fuel with
  | O => fun _ _ _ => OutOfFuel
  | S n => recurse_body rev E rh cs (recurse n rev E rh cs)
  end.

(** [interpolationTimes_[i]] *)
Definition at_index (v : vector_t) (i : nat) : outcome value_type :=
  match nth_error v i with
  | Some x => Ret x
  | None => Fault out_of_range
  end.

(** The loop over consecutive interpolation points in [project]: lines
    143-150 ([RevA]), 463-471 ([RevB]), [src/path.cc] 478-485 ([RevC]).
    [ip0] is [*_ip0], the head of [rest] is [*_ip1]. *)
Fixpoint interpolation_pieces (rev : revision) (E : Collaborators)
  (rh : RecursiveHermite) (cs : option ConstraintSet)
  (ip0 : value_type * Configuration_t)
  (rest : list (value_type * Configuration_t)) (iter : nat)
  : outcome (list (option Hermite)) :=
  match rest with
  | [] => Ret []
  | ip1 :: rest' =>
      h <- match rev with
           | RevA => Ret (cast_Hermite (steer E cs (snd ip0) (snd ip1)))
           | RevB | RevC =>
               a <- at_index (interpolationTimes_ rh) iter ;;
               b <- at_index (interpolationTimes_ rh) (S iter) ;;
               Ret (cast_Hermite
                      (steer_with_timeRange E cs (snd ip0) (snd ip1) (a, b)))
           end ;;
      tl <- interpolation_pieces rev E rh cs ip1 rest' (S iter) ;;
      Ret (h :: tl)
  end.

(** The vector [ps] of candidate pieces built by [project], lines 132-157. *)
Definition project_pieces (rev : revision) (E : Collaborators)
  (rh : RecursiveHermite) (cs : option ConstraintSet) (path : PathPtr_t)
  : outcome (list (option Hermite)) :=
  match path with
  | HermitePtr p => Ret [Some p]
  | InterpolatedPathPtr _ ips =>
      match ips with
      | [] => Fault out_of_range
      | ip0 :: rest => interpolation_pieces rev E rh cs ip0 rest 0
      end
  | _ =>
      qi <- deref (Path_initial path) ;;
      qe <- deref (Path_end path) ;;
      Ret [cast_Hermite (steer E cs qi qe)]
  end.

(** The loop over [ps], lines 163-178: a piece shorter than [thr] is kept,
    any other is handed to [recurse] together with a fresh [PathVector] [r],
    which is then concatenated to [res].  The result is the final value of
    [success] and [res]. *)
Fixpoint project_loop (E : Collaborators) (rec : recursion)
  (outSize outDerivSize : size_type) (thr : value_type)
  (ps : list (option Hermite)) (res : PathVector)
  : outcome (bool * PathVector) :=
  match ps with
  | [] => Ret (true, res)
  | p :: ps' =>
      p <- deref p ;;
      let p := computeHermiteLength E p in
      if Qlt_bool (hermiteLength_ p) thr then
        project_loop E rec outSize outDerivSize thr ps'
                     (appendPath res (HermitePtr p))
      else
        let r := PathVector_create outSize outDerivSize in
        '(success, r) <- rec p r thr ;;
        let res := concatenate res r in
        if negb success then Ret (false, res)
        else project_loop E rec outSize outDerivSize thr ps' res
  end.

(** [RecursiveHermite::project] (lines 112-216), the calls to [recurse]
    being made through [rec].  [proj] is the caller's pointer on entry; the
    result carries the returned flag and the pointer on exit.  The
    [pathValidation->validate] call of [RevB] only prints and is left out,
    as is the benchmark block. *)
Definition project_with (rec : option ConstraintSet -> recursion)
  (rev : revision) (E : Collaborators) (rh : RecursiveHermite)
  (path : PathPtr_t) (proj : option PathPtr_t)
  : outcome (bool * option PathPtr_t) :=
  match constraints (base_of path) with
  | None => Ret (true, Some path)
  | Some cs =>
      q1 <- deref (Path_initial path) ;;
      q2 <- deref (Path_end path) ;;
      if negb (isSatisfied cs q2) then Ret (false, proj)
      else
        match configProjector cs with
        | None => Ret (true, Some path)
        | Some cp =>
            if (dimension cp =? 0)%Z then Ret (true, Some path)
            else
              thr <- project_thr_checked rev rh cp ;;
              ps <- project_pieces rev E rh (Some cs) path ;;
              '(success, res) <-
                 project_loop E (rec (Some cs))
                   (outputSize (base_of path))
                   (outputDerivativeSize (base_of path)) thr ps
                   (PathVector_create (outputSize (base_of path))
                      (outputDerivativeSize (base_of path))) ;;
              if success then Ret (true, Some (PathVector_ptr res))
              else
                let tmin := fst (timeRange (base_of path)) in
                match numberPaths res with
                | O => Ret (false, Some (extract E path (tmin, tmin)))
                | 1%nat => Ret (false, pathAtRank res 0)
                | _ => Ret (false, Some (PathVector_ptr res))
                end
        end
  end.

Definition project (fuel : nat) (rev : revision) (E : Collaborators)
  (rh : RecursiveHermite) (path : PathPtr_t) (proj : option PathPtr_t)
  : outcome (bool * option PathPtr_t) :=
  project_with (fun cs => recurse fuel rev E rh cs) rev E rh path proj.

(** [RecursiveHermite::impl_apply] (lines 74-110; lines 380-420 for
    [RevB]).  [assert] is compiled out, as in a release build; the three
    assertions are [impl_apply_assertions] below.

    Modelled from the spec: [PathProjector::apply] ([path-projector.cc] is
    not part of the sources at hand) is the entry point that runs
    [impl_apply]; the call [apply(pv->pathAtRank(i), part)] is the recursive
    call. *)
Fixpoint impl_apply (fuel : nat) (rev : revision) (E : Collaborators)
  (rh : RecursiveHermite) (path : PathPtr_t) (proj : option PathPtr_t)
  : outcome (bool * option PathPtr_t) :=
  match fuel with
  | O => OutOfFuel
  | S n =>
      '(success, proj) <-
        match path with
        | PathVectorPtr pv paths =>
            '(success, res) <-
              (fix loop (l : list PathPtr_t) (i : nat) (part : option PathPtr_t)
                        (res : PathVector) : outcome (bool * PathVector) :=
                 match l with
                 | [] => Ret (true, res)
                 | p :: l' =>
                     '(ok, part) <- impl_apply n rev E rh p part ;;
                     if negb ok then
                       match part with
                       | Some pp =>
                           if Qlt_bool 0 (length (base_of pp)) || (i =? 0)%nat
                           then Ret (false, appendPath res pp)
                           else Ret (false, res)
                       | None => Ret (false, res)
                       end
                     else
                       pp <- deref part ;;
                       loop l' (S i) part (appendPath res pp)
                 end) paths 0%nat None
                (PathVector_create (outputSize pv) (outputDerivativeSize pv)) ;;
            Ret (success, Some (PathVector_ptr res))
        | _ =>
            match constraints (base_of path) with
            | None => Ret (true, Some path)
            | Some cs =>
                match configProjector cs with
                | None => Ret (true, Some path)
                | Some _ => project n rev E rh path proj
                end
            end
        end ;;
      match rev with
      | RevB =>
          pp <- deref proj ;;
          _ <- checkPath pp ;;
          Ret (success, proj)
      | RevA | RevC => Ret (success, proj)
      end
  end.

(** The assertions that close [impl_apply] (lines 106-108):
    [assert(proj)], [assert((proj->initial() - path->initial()).isZero())],
    [assert(!success || (proj->end() - path->end()).isZero())]. *)
Definition config_eqb (a b : Configuration_t) : bool :=
  (List.length a =? List.length b)%nat &&
  forallb (fun x => Qeq_bool x 0) (vsub a b).

Definition same_config (a b : option Configuration_t) : bool :=
  match a, b with
  | Some qa, Some qb => config_eqb qa qb
  | _, _ => false
  end.

Definition impl_apply_assertions (path : PathPtr_t) (success : bool)
  (proj : option PathPtr_t) : bool :=
  match proj with
  | None => false
  | Some pp =>
      same_config (Path_initial pp) (Path_initial path) &&
      (negb success || same_config (Path_end pp) (Path_end path))
  end.

(* ================================================================== *)
(** ** Notions used by the properties *)
(* ================================================================== *)

(** [ring] over scalars declared as [value_type]. *)
Ltac qring :=
  repeat match goal with
         | |- context [timeParameterization.value ?a ?b] =>
             generalize (timeParameterization.value a b); intro
         end;
  unfold value_type in *; ring.

(** The [value] and [derivative] of a concrete parameterization are
    functions of the number they are given: they do not tell two
    representations of the same fraction apart. *)
Fixpoint well_behaved (tp : TimeParameterization) : Prop :=
  match tp with
  | timeParameterization.Concrete f d =>
      (forall x y, x == y -> f x == f y)
      /\ (forall x y order, x == y -> d x order == d y order)
  | timeParameterization.Shift tp_ _ _ => well_behaved tp_
  end.

(** [l] is a sequence of Hermite pieces that starts at [a], each piece
    starting where the previous one ends, and that ends at [b]. *)
Fixpoint chain (a : Configuration_t) (l : list Hermite) (b : Configuration_t)
  : Prop :=
  match l with
  | [] => a = b
  | h :: l' => init_ h = a /\ chain (end_ h) l' b
  end.

(** The steering method joins the configurations it is given: a piece
    steered from [qa] to [qb] has them as [initial()] and [end()]. *)
Definition steer_connects (rev : revision) (E : Collaborators) : Prop :=
  forall cs qa qb tr h,
    steer_child rev E cs qa qb tr = Ret h -> init_ h = qa /\ end_ h = qb.

(** The steering method returns pieces whose time range is not reduced to
    a point, as long as the time range it is given, if any, is not. *)
Definition steer_spans (rev : revision) (E : Collaborators) : Prop :=
  forall cs qa qb tr h,
    steer_child rev E cs qa qb tr = Ret h ->
    rev = RevA \/ ~ snd tr - fst tr == 0 ->
    ~ Hermite_span h == 0.

(** The call came to an end: it returned or threw. *)
Definition ended {A : Type} (o : outcome A) : bool :=
  match o with
  | Ret _ | Throw _ => true
  | Fault _ | OutOfFuel => false
  end.

(** The loop of [impl_apply] over the pieces of a path vector (lines
    91-103), the calls to [apply] being made through [self]: [i] is the
    loop index, [part] and [res] the variables of these names. *)
Definition impl_apply_loop
  (self : PathPtr_t -> option PathPtr_t -> outcome (bool * option PathPtr_t))
  : list PathPtr_t -> nat -> option PathPtr_t -> PathVector ->
    outcome (bool * PathVector) :=
  fix loop (l : list PathPtr_t) (i : nat) (part : option PathPtr_t)
           (res : PathVector) : outcome (bool * PathVector) :=
    match l with
    | [] => Ret (true, res)
    | p :: l' =>
        '(ok, part) <- self p part ;;
        if negb ok then
          match part with
          | Some pp =>
              if Qlt_bool 0 (length (base_of pp)) || (i =? 0)%nat
              then Ret (false, appendPath res pp)
              else Ret (false, res)
          | None => Ret (false, res)
          end
        else
          pp <- deref part ;;
          loop l' (S i) part (appendPath res pp)
    end.

(** A path of a class other than [PathVector] that carries no constraint
    set. *)
Definition unconstrained (p : PathPtr_t) : Prop :=
  match p with
  | PathVectorPtr _ _ => False
  | _ => constraints (base_of p) = None
  end.

(** Shifts applied one after the other through [createWithCheck], as
    repeated extraction does. *)
Definition shift_all (tp : TimeParameterization)
  (shifts : list (value_type * value_type)) : TimeParameterization :=
  fold_left
    (fun a ts => timeParameterization.createWithCheck a (fst ts) (snd ts))
    shifts tp.

(* ================================================================== *)
(** ** The statements of the specification, in its own words *)
(* ================================================================== *)

(** Chain rule, order 1: [f'(g(t)) g'(t)]. *)
Definition chain_rule_1 (f' : value_type -> vector_t)
  (g g' : value_type -> value_type) (t : value_type) : vector_t :=
  vscale (f' (g t)) (g' t).

(** Chain rule, order 2: [f''(g(t)) g'(t)^2 + f'(g(t)) g''(t)]. *)
Definition chain_rule_2 (f' f'' : value_type -> vector_t)
  (g g' g'' : value_type -> value_type) (t : value_type) : vector_t :=
  vadd (vscale (f'' (g t)) (g' t ^ 2)) (vscale (f' (g t)) (g'' t)).

(** A child piece that has been given the boundary velocities [a] and [b]
    through the two setters, its length estimate then being recomputed. *)
Definition with_velocities (E : Collaborators) (h : Hermite) (a b : vector_t)
  : Hermite :=
  computeHermiteLength E (set_v1 (set_v0 h a) b).

(** The children of a bisection as the statement on halved velocities reads:
    from the steered pieces [l0] and [r0], the parent's boundary velocities
    [pv0] and [pv1] and the midpoint tangent [vmid], every velocity being
    divided by two. *)
Definition halved_children (E : Collaborators) (l0 r0 : Hermite)
  (pv0 pv1 vmid : vector_t) : Hermite * Hermite :=
  (with_velocities E l0 (vdiv pv0 2) (vdiv vmid 2),
   with_velocities E r0 (vdiv vmid 2) (vdiv pv1 2)).

(** The same with the velocities taken as they are. *)
Definition plain_children (E : Collaborators) (l0 r0 : Hermite)
  (pv0 pv1 vmid : vector_t) : Hermite * Hermite :=
  (with_velocities E l0 pv0 vmid, with_velocities E r0 vmid pv1).


(** Decidable equality of vectors up to equality of fractions. *)
Fixpoint veqb (a b : vector_t) : bool :=
  match a, b with
  | [], [] => true
  | x :: a', y :: b' => Qeq_bool x y && veqb a' b'
  | _, _ => false
  end.

(* ================================================================== *)
(** ** Sample objects *)
(* ================================================================== *)

Module Sample.

(** A Hermite piece from [qa] to [qb] over [tr], with control points
    [0, 0, qb - qa, qb - qa] (zero boundary velocities) and an unknown
    length. *)
Definition hermite (cs : option ConstraintSet) (qa qb : Configuration_t)
  (tr : interval_t) : Hermite :=
  {| hermite_base := Path_ctor tr (Z.of_nat (List.length qa))
                       (Z.of_nat (List.length qa)) cs;
     parameters_ := [map (fun _ => 0) qa; map (fun _ => 0) qa;
                     vsub qb qa; vsub qb qa];
     init_ := qa;
     end_ := qb;
     hermiteLength_ := -1 |}.

(** Length of the control polygon in the 1-norm. *)
Definition norm1 (v : vector_t) : value_type :=
  fold_right (fun x acc => Qabs x + acc) 0 v.

Definition polygon_length (h : Hermite) : value_type :=
  norm1 (vsub (row h 1) (row h 0)) + norm1 (vsub (row h 2) (row h 1))
  + norm1 (vsub (row h 3) (row h 2)).

(** Collaborators over which the sample computations run: straight-line
    midpoints, a constant chord velocity, the polygon length, a sub-path
    whose parameter range starts at zero (as a straight path's
    [impl_extract] builds it) and the derivatives of [t^2]. *)
Definition E : Collaborators :=
  {| steer := fun cs qa qb => Some (HermitePtr (hermite cs qa qb (0, 1)));
     impl_compute_with_timeRange :=
       fun cs qa qb tr => Some (HermitePtr (hermite cs qa qb tr));
     eval := fun h _ =>
       (vzip (fun a b => (a + b) / 2) (init_ h) (end_ h), true);
     velocity := fun h _ => vsub (end_ h) (init_ h);
     hermiteLengthOf := polygon_length;
     impl_extract := fun p iv =>
       set_base p
         {| paramRange_ := (0, Qabs (snd iv - fst iv));
            timeRange_ := (0, Qabs (snd iv - fst iv));
            outputSize_ := outputSize_ (base_of p);
            outputDerivativeSize_ := outputDerivativeSize_ (base_of p);
            constraints_ := constraints_ (base_of p);
            timeParam_ := None |};
     impl_derivative := fun _ t order =>
       match order with
       | 1%Z => [2 * t]
       | 2%Z => [2]
       | _ => [0]
       end |}.

(** The affine time parameterization [t |-> 2 t + 1]. *)
Definition affine : TimeParameterization :=
  timeParameterization.Concrete
    (fun t => 2 * t + 1)
    (fun _ order => match order with 1%Z => 2 | _ => 0 end).

(** A constraint set with a config projector of dimension 1 and error
    threshold [1/10000]; [never] rejects every configuration, [always]
    accepts every configuration. *)
Definition cp : ConfigProjector :=
  {| errorThreshold := 1 # 10000; dimension := 1%Z |}.

Definition never : ConstraintSet :=
  {| name := "never";
     configProjector := Some cp;
     isSatisfied := fun _ => false;
     isSatisfiedAt := fun _ _ => false |}.

Definition always : ConstraintSet :=
  {| name := "always";
     configProjector := Some cp;
     isSatisfied := fun _ => true;
     isSatisfiedAt := fun _ _ => true |}.

(** A straight segment from [0] to [1] over [[0, 5]], of a class other than
    Hermite, interpolated path or path vector. *)
Definition segment (cs : option ConstraintSet)
  (tp : option TimeParameterization) : PathPtr_t :=
  OtherPathPtr
    {| paramRange_ := match tp with
                      | Some g => (timeParameterization.value g 0,
                                   timeParameterization.value g 5)
                      | None => (0, 5)
                      end;
       timeRange_ := (0, 5);
       outputSize_ := 1%Z;
       outputDerivativeSize_ := 1%Z;
       constraints_ := cs;
       timeParam_ := tp |} [0] [1].

Definition hermiteSM : SteeringMethod := {| is_steeringMethod_Hermite := true |}.

(** A projector with [M = 1] and [beta = 0.6]. *)
Definition projector : RecursiveHermite :=
  {| steeringMethod_ := hermiteSM;
     M_ := 1;
     beta_ := Number (6 # 10);
     interpolationTimes_ := [] |}.

(** A Hermite piece from [0] to [4] over [[0, 2]] with both boundary
    velocities set to [6]; its midpoint configuration is [2]. *)
Definition parent : Hermite :=
  with_velocities E (hermite None [0] [4] (0, 2)) [6] [6].

(** A Hermite piece from [0] to [4] over [[0, 1]] with [v0 = 0] and
    [v1 = 12].  Its polygon length is [4]; bisected in [RevA] it gives a left
    child of length [2] and a right child of length [10/3]. *)
Definition skewed : Hermite :=
  with_velocities E (hermite None [0] [4] (0, 1)) [0] [12].

(** A Hermite piece from [0] back to [0] over [[0, 1/4]] with [v0 = 0] and
    [v1 = 12].  Its polygon length is [2]; bisected in [RevA] it gives a
    left child all of whose coefficients are zero, of length [0], and a
    right child of length [4]. *)
Definition loop : Hermite :=
  with_velocities E (hermite None [0] [0] (0, 1 # 4)) [0] [12].


(** A stand-in for [recurse] that keeps the piece and reports whether the
    threshold it receives is the [expected] one. *)
Definition probe (expected : value_type) : option ConstraintSet -> recursion :=
  fun _ p r thr => Ret (Qeq_bool thr expected, appendPath r (HermitePtr p)).

(** The flag returned by [project] or [impl_apply], when they return. *)
Definition flag {A : Type} (o : outcome (bool * A)) : option bool :=
  match o with
  | Ret (b, _) => Some b
  | _ => None
  end.

(** The piece [skewed] with the constraint set [always] attached. *)
Definition constrained : PathPtr_t :=
  HermitePtr (with_velocities E (hermite (Some always) [0] [4] (0, 1)) [0] [12]).

(** Collaborators as [E], except that [impl_extract] returns a sub-path over
    the requested parameter interval itself, lower bound first. *)
Definition keeping : Collaborators :=
  {| steer := steer E;
     impl_compute_with_timeRange := impl_compute_with_timeRange E;
     eval := eval E;
     velocity := velocity E;
     hermiteLengthOf := hermiteLengthOf E;
     impl_extract := fun p iv =>
       set_base p
         {| paramRange_ := if Qle_bool (fst iv) (snd iv) then iv
                           else (snd iv, fst iv);
            timeRange_ := if Qle_bool (fst iv) (snd iv) then iv
                          else (snd iv, fst iv);
            outputSize_ := outputSize_ (base_of p);
            outputDerivativeSize_ := outputDerivativeSize_ (base_of p);
            constraints_ := constraints_ (base_of p);
            timeParam_ := None |};
     impl_derivative := impl_derivative E |}.

(** A constraint set whose config projector has error threshold [1/2], so
    that the acceptance threshold of a projector with [M = 1] is [1]; and
    the piece [parent] with this constraint set attached. *)
Definition cp_coarse : ConfigProjector :=
  {| errorThreshold := 1 # 2; dimension := 1%Z |}.

Definition coarse : ConstraintSet :=
  {| name := "coarse";
     configProjector := Some cp_coarse;
     isSatisfied := fun _ => true;
     isSatisfiedAt := fun _ _ => true |}.

Definition constrained_coarse : PathPtr_t :=
  HermitePtr (with_velocities E (hermite (Some coarse) [0] [4] (0, 2)) [6] [6]).

End Sample.

(* ================================================================== *)
(** * Properties *)
(* ================================================================== *)

(** ** Comparisons and vectors *)

Lemma Qlt_bool_iff (a b : Q) : Qlt_bool a b = true <-> a < b.
Proof.
  unfold Qlt_bool. rewrite negb_true_iff. split.
  - intros H. apply Qnot_le_lt. intros Hle.
    apply Qle_bool_iff in Hle. congruence.
  - intros H. destruct (Qle_bool b a) eqn:Hb; [|reflexivity].
    apply Qle_bool_iff in Hb. exfalso. apply (Qlt_not_le _ _ H Hb).
Qed.

Lemma Qlt_bool_false_iff (a b : Q) : Qlt_bool a b = false <-> b <= a.
Proof.
  unfold Qlt_bool. rewrite negb_false_iff. apply Qle_bool_iff.
Qed.

Lemma veq_refl (v : vector_t) : veq v v.
Proof.
  induction v; constructor; [reflexivity | assumption].
Qed.

Lemma veq_map (f g : Q -> Q) (v : vector_t) :
  (forall x, f x == g x) -> veq (map f v) (map g v).
Proof.
  intros H. induction v; simpl; constructor; auto.
Qed.

(** ** Time parameterization *)

Section ShiftFacts.

Import timeParameterization.

Lemma canonical_Shift_inner (tp : TimeParameterization) (t s : value_type) :
  canonical (Shift tp t s) = true <-> is_Shift tp = false.
Proof.
  unfold canonical. destruct tp; simpl; split; intros; try reflexivity;
    discriminate.
Qed.

(** [create] keeps the normal form. *)
Lemma create_canonical (tp : TimeParameterization) (t s : value_type) :
  canonical tp = true -> canonical (create tp t s) = true.
Proof.
  destruct tp as [f d | tp' t' s']; simpl; [reflexivity|].
  intros H. exact H.
Qed.

Lemma createWithCheck_canonical (tp : TimeParameterization) (t s : value_type) :
  canonical tp = true -> canonical (createWithCheck tp t s) = true.
Proof.
  intros H. unfold createWithCheck.
  destruct (Qeq_bool t 0 && Qeq_bool s 0); [exact H|].
  now apply create_canonical.
Qed.

(** A copy is always in normal form, whatever the original. *)
Lemma copy_canonical (tp : TimeParameterization) : canonical (copy tp) = true.
Proof.
  induction tp as [f d | tp' IH t' s']; simpl; [reflexivity|].
  now apply create_canonical.
Qed.

Lemma createWithCheck_zero (tp : TimeParameterization) (z1 z2 : value_type) :
  z1 == 0 -> z2 == 0 -> createWithCheck tp z1 z2 = tp.
Proof.
  intros Hz1 Hz2. unfold createWithCheck.
  now rewrite (Qeq_eq_bool _ _ Hz1), (Qeq_eq_bool _ _ Hz2).
Qed.

Lemma Shift_not_its_own_inner (tp : TimeParameterization) (t s : value_type) :
  tp <> Shift tp t s.
Proof.
  intros H. apply (f_equal depth) in H. simpl in H. lia.
Qed.

(** The objects the program can hold are those in normal form. *)
Lemma built_canonical (tp : TimeParameterization) :
  built tp <-> canonical tp = true.
Proof.
  split.
  - intros H. induction H as [f d | tp t s H IH]; [reflexivity|].
    now apply create_canonical.
  - intros H. destruct tp as [f d | [f d | tp' t' s'] t s].
    + constructor.
    + exact (built_create (Concrete f d) t s (built_Concrete f d)).
    + discriminate.
Qed.

Lemma built_createWithCheck (tp : TimeParameterization) (t s : value_type) :
  built tp -> built (createWithCheck tp t s).
Proof.
  intros H. unfold createWithCheck.
  destruct (Qeq_bool t 0 && Qeq_bool s 0); [exact H | now constructor].
Qed.

Lemma built_copy (tp : TimeParameterization) : built (copy tp).
Proof. apply built_canonical, copy_canonical. Qed.

(** Under a [Shift] in normal form there is no [Shift]. *)
Lemma canonical_no_inner_Shift (x inner : TimeParameterization)
  (t s : value_type) :
  canonical x = true -> x = Shift inner t s -> is_Shift inner = false.
Proof.
  intros Hc ->. now apply canonical_Shift_inner in Hc.
Qed.

(** C9 -- Creating a [Shift] with offsets [(t, s)] over a parameterization
    that is already a [Shift] with offsets [(t0, s0)] yields the single
    [Shift] over the same inner parameterization with offsets
    [(t0 + t, s0 + s)], through [create] and, unless both offsets are
    zero, through [createWithCheck]: no wrapper is added and the result is
    not a [Shift] around the given [Shift].  On the objects the program
    can hold, which are those in normal form, the inner parameterization
    is not a [Shift], so that the result is never a [Shift] around a
    [Shift].  [createWithCheck] with both offsets zero returns the
    parameterization it was given. *)
Theorem Shift_create_folds (tp : TimeParameterization)
  (t0 s0 t s : value_type) :
  create (Shift tp t0 s0) t s = Shift tp (t0 + t) (s0 + s)
  /\ createWithCheck (Shift tp t0 s0) t s
     = (if Qeq_bool t 0 && Qeq_bool s 0 then Shift tp t0 s0
        else Shift tp (t0 + t) (s0 + s))
  /\ (~ (t == 0 /\ s == 0) ->
      createWithCheck (Shift tp t0 s0) t s = Shift tp (t0 + t) (s0 + s))
  /\ depth (create (Shift tp t0 s0) t s) = depth (Shift tp t0 s0)
  /\ depth (createWithCheck (Shift tp t0 s0) t s) = depth (Shift tp t0 s0)
  /\ (forall t' s', create (Shift tp t0 s0) t s <> Shift (Shift tp t0 s0) t' s')
  /\ (forall t' s',
        createWithCheck (Shift tp t0 s0) t s <> Shift (Shift tp t0 s0) t' s')
  /\ (canonical (Shift tp t0 s0) = true ->
      canonical (create (Shift tp t0 s0) t s) = true
      /\ canonical (createWithCheck (Shift tp t0 s0) t s) = true)
  /\ (built (Shift tp t0 s0) ->
      is_Shift tp = false
      /\ built (create (Shift tp t0 s0) t s)
      /\ built (createWithCheck (Shift tp t0 s0) t s)
      /\ (forall inner t' s',
            create (Shift tp t0 s0) t s = Shift inner t' s'
            \/ createWithCheck (Shift tp t0 s0) t s = Shift inner t' s' ->
            is_Shift inner = false))
  /\ createWithCheck tp 0 0 = tp
  /\ createWithCheck (Shift tp t0 s0) 0 0 = Shift tp t0 s0
  /\ (forall z1 z2 : value_type,
        z1 == 0 -> z2 == 0 -> createWithCheck (Shift tp t0 s0) z1 z2
                              = Shift tp t0 s0).
Proof.
  assert (Hwrap : forall t' s',
            create (Shift tp t0 s0) t s <> Shift (Shift tp t0 s0) t' s').
  { intros t' s' H. simpl in H. injection H as H _ _.
    exact (Shift_not_its_own_inner tp t0 s0 H). }
  split; [reflexivity|]. split; [reflexivity|].
  split.
  { intros Hnz. unfold createWithCheck.
    destruct (Qeq_bool t 0 && Qeq_bool s 0) eqn:Hb; [|reflexivity].
    apply andb_true_iff in Hb. destruct Hb as [Ht Hs].
    apply Qeq_bool_iff in Ht. apply Qeq_bool_iff in Hs.
    exfalso. apply Hnz. split; assumption. }
  split; [reflexivity|].
  split.
  { unfold createWithCheck. destruct (Qeq_bool t 0 && Qeq_bool s 0);
      reflexivity. }
  split; [exact Hwrap|].
  split.
  { intros t' s' H. unfold createWithCheck in H.
    destruct (Qeq_bool t 0 && Qeq_bool s 0).
    - injection H as H _ _. exact (Shift_not_its_own_inner tp t0 s0 H).
    - exact (Hwrap t' s' H). }
  split.
  { intros Hc. split.
    - now apply create_canonical.
    - now apply createWithCheck_canonical. }
  split.
  { intros Hb. pose proof (proj1 (built_canonical _) Hb) as Hc.
    split; [now apply canonical_Shift_inner in Hc|].
    split; [now constructor|].
    split; [now apply built_createWithCheck|].
    intros inner t' s' [H | H].
    - exact (canonical_no_inner_Shift _ inner t' s'
               (create_canonical _ t s Hc) H).
    - exact (canonical_no_inner_Shift _ inner t' s'
               (createWithCheck_canonical _ t s Hc) H). }
  split; [reflexivity|]. split; [reflexivity|].
  intros z1 z2 Hz1 Hz2. now apply createWithCheck_zero.
Qed.

Lemma Shift_create_folds_witness :
  canonical (Shift Sample.affine 1 (-3)) = true
  /\ built (Shift Sample.affine 1 (-3))
  /\ ~ (2 == 0 /\ 5 == 0)
  /\ create (Shift Sample.affine 1 (-3)) 2 5
     = Shift Sample.affine (1 + 2) (-3 + 5)
  /\ createWithCheck (Shift Sample.affine 1 (-3)) 2 5
     = Shift Sample.affine (1 + 2) (-3 + 5)
  /\ canonical (create (Shift Sample.affine 1 (-3)) 2 5) = true
  /\ (forall inner t' s',
        create (Shift Sample.affine 1 (-3)) 2 5 = Shift inner t' s'
        \/ createWithCheck (Shift Sample.affine 1 (-3)) 2 5 = Shift inner t' s'
        -> is_Shift inner = false)
  /\ createWithCheck Sample.affine 0 0 = Sample.affine.
Proof.
  assert (Hb : built (Shift Sample.affine 1 (-3))).
  { exact (built_create Sample.affine 1 (-3) (built_Concrete _ _)). }
  assert (Hnz : ~ (2 == 0 /\ 5 == 0)).
  { intros [H _]. discriminate H. }
  split; [reflexivity|]. split; [exact Hb|]. split; [exact Hnz|].
  pose proof (Shift_create_folds Sample.affine 1 (-3) 2 5) as H.
  destruct H as (H1 & _ & H3 & _ & _ & _ & _ & H8 & H9 & H10 & _).
  split; [exact H1|]. split; [exact (H3 Hnz)|].
  split; [exact (proj1 (H8 eq_refl))|].
  split; [exact (proj2 (proj2 (proj2 (H9 Hb))))|].
  exact H10.
Defined.

End ShiftFacts.

(** ** Construction of the projector *)




(** ** Derivatives through a time parameterization *)

Lemma derivative_unsupported_order (E : Collaborators) (p : PathPtr_t)
  (tp : TimeParameterization) (time : value_type) (order : size_type) :
  timeParam_ (base_of p) = Some tp ->
  order <> 1%Z -> order <> 2%Z ->
  derivative E p time order
  = Throw (invalid_argument
             "Cannot compute the derivative of order greater than 2.").
Proof.
  intros H H1 H2. unfold derivative. rewrite H.
  destruct order as [|[q|q|]|]; try reflexivity; try congruence.
  destruct q; try reflexivity; congruence.
Qed.

(** C6 -- With a time parameterization [g] attached, [Path::derivative] at
    time [t] returns [f'(g(t)) g'(t)] for order 1 and
    [f''(g(t)) g'(t)^2 + f'(g(t)) g''(t)] for order 2, [f'] and [f'']
    being [impl_derivative] at orders 1 and 2; for every order greater than
    2 it throws [std::invalid_argument]. *)
Theorem derivative_chain_rule (E : Collaborators) (p : PathPtr_t)
  (tp : TimeParameterization) (t : value_type) :
  timeParam_ (base_of p) = Some tp ->
  let f' := fun s => impl_derivative E p s 1%Z in
  let f'' := fun s => impl_derivative E p s 2%Z in
  let g := timeParameterization.value tp in
  let g' := fun s => timeParameterization.derivative tp s 1%Z in
  let g'' := fun s => timeParameterization.derivative tp s 2%Z in
  derivative E p t 1%Z = Ret (chain_rule_1 f' g g' t)
  /\ derivative E p t 2%Z = Ret (chain_rule_2 f' f'' g g' g'' t)
  /\ forall order, (2 < order)%Z ->
       exists what,
         derivative E p t order = Throw (invalid_argument what)
         /\ is_logic_error (invalid_argument what) = true.
Proof.
  intros H f' f'' g g' g''. repeat split.
  - unfold derivative. rewrite H. reflexivity.
  - unfold derivative. rewrite H. reflexivity.
  - intros order Hlt. eexists. split; [|reflexivity].
    apply derivative_unsupported_order with (tp := tp); [exact H | lia | lia].
Qed.

Lemma derivative_chain_rule_witness :
  timeParam_ (base_of (Sample.segment None (Some Sample.affine)))
  = Some Sample.affine
  /\ derivative Sample.E (Sample.segment None (Some Sample.affine)) 3 1%Z
     = Ret [2 * (2 * 3 + 1) * 2]
  /\ derivative Sample.E (Sample.segment None (Some Sample.affine)) 3 2%Z
     = Ret [2 * 2 ^ 2 + 2 * (2 * 3 + 1) * 0].
Proof.
  split; [reflexivity|].
  pose proof (derivative_chain_rule Sample.E
                (Sample.segment None (Some Sample.affine)) Sample.affine 3
                eq_refl) as H.
  split; [exact (proj1 H) | exact (proj1 (proj2 H))].
Defined.

(** ** Serialization *)

(** C8 -- Saving a [Path] that carries a time parameterization throws
    [std::logic_error]; saving a [Path] without one returns, the archive
    holding the five members written. *)
Theorem serialize_timeParam_logic_error (p : Path) (ar : Archive) :
  is_saving ar = true ->
  match timeParam_ p with
  | Some _ =>
      exists what, serialize p ar = Throw (logic_error what)
                   /\ is_logic_error (logic_error what) = true
  | None =>
      serialize p ar
      = Ret (p, {| is_saving := true;
                   content := content ar
                              ++ [nvp_timeRange (timeRange_ p);
                                  nvp_outputSize (outputSize_ p);
                                  nvp_outputDerivativeSize (outputDerivativeSize_ p);
                                  nvp_constraints (constraints_ p);
                                  nvp_weak] |})
  end.
Proof.
  intros Hs. unfold serialize, serialize_save. rewrite Hs.
  destruct (timeParam_ p) as [tp|].
  - eexists. split; reflexivity.
  - unfold archive_put. simpl. rewrite Hs.
    repeat rewrite <- app_assoc. reflexivity.
Qed.

Lemma serialize_timeParam_logic_error_witness :
  (exists what,
     serialize (base_of (Sample.segment None (Some Sample.affine)))
               {| is_saving := true; content := [] |}
     = Throw (logic_error what)
     /\ is_logic_error (logic_error what) = true)
  /\ returns (serialize (base_of (Sample.segment None None))
                        {| is_saving := true; content := [] |}) = true.
Proof.
  split.
  - exact (serialize_timeParam_logic_error
             (base_of (Sample.segment None (Some Sample.affine)))
             {| is_saving := true; content := [] |} eq_refl).
  - rewrite (serialize_timeParam_logic_error
               (base_of (Sample.segment None None))
               {| is_saving := true; content := [] |} eq_refl).
    reflexivity.
Defined.

(** Loading never raises the logic error, with or without a time
    parameterization on the object being filled. *)
Lemma serialize_load_no_logic_error (p : Path) (ar : Archive) (what : string) :
  is_saving ar = false -> serialize p ar <> Throw (logic_error what).
Proof.
  intros Hs. unfold serialize, serialize_load. rewrite Hs.
  unfold archive_get.
  destruct (content ar) as [|x1 [|x2 [|x3 [|x4 rest]]]]; simpl;
    try discriminate.
  destruct x1, x2, x3, x4; simpl; try discriminate;
    destruct rest; simpl; discriminate.
Qed.

(** ** Boundary velocities of a Hermite path *)

Lemma nth_set_row_same (i : nat) (v : vector_t) (m : list vector_t) :
  (i < List.length m)%nat -> nth i (set_row i v m) [] = v.
Proof.
  revert i. induction m as [|r m IH]; intros [|i] H; simpl in *; try lia.
  - reflexivity.
  - apply IH. lia.
Qed.

Lemma nth_set_row_other (i j : nat) (v : vector_t) (m : list vector_t) :
  i <> j -> nth j (set_row i v m) [] = nth j m [].
Proof.
  revert i j. induction m as [|r m IH]; intros [|i] [|j] H; simpl;
    try reflexivity; try congruence.
  apply IH. congruence.
Qed.

(** The getter's formula undoes the setter's on every coefficient, the
    first control point being zero and the span non-zero. *)
Lemma v0_formula_roundtrip (w r0 : vector_t) (L : value_type) :
  List.length r0 = List.length w ->
  Forall (fun x => x == 0) r0 ->
  ~ L == 0 ->
  veq (vdiv (lscale 3 (vsub (vscale (vdiv w 3) L) r0)) L) w.
Proof.
  intros Hlen Hz HL. revert r0 Hlen Hz.
  induction w as [|x w IH]; intros [|z r0] Hlen Hz; simpl in *;
    try discriminate; [constructor|].
  inversion Hz as [|? ? Hz0 Hz']; subst.
  constructor.
  - rewrite Hz0. field. exact HL.
  - apply IH; [now injection Hlen | assumption].
Qed.

Lemma Hermite_wf_row0_length (nv : nat) (h : Hermite) :
  Hermite_wf nv h -> List.length (row h 0) = nv.
Proof.
  intros (H4 & Hrows & _). unfold row.
  destruct (parameters_ h) as [|r0 m]; [discriminate|].
  simpl. now inversion Hrows.
Qed.

Lemma vdiv_checked_nonzero (v : vector_t) (k : value_type) :
  ~ k == 0 -> vdiv_checked v k = Ret (vdiv v k).
Proof.
  intros Hk. unfold vdiv_checked. destruct v as [|x v]; [reflexivity|].
  destruct (Qeq_bool k 0) eqn:Hb; [|reflexivity].
  apply Qeq_bool_iff in Hb. contradiction.
Qed.

(** With any first row the getter's formula returns the velocity that was
    set minus three times the first row over the length of the time
    range. *)
Lemma v0_formula_first_row (w r0 : vector_t) (L : value_type) :
  ~ L == 0 ->
  veq (vdiv (lscale 3 (vsub (vscale (vdiv w 3) L) r0)) L)
      (vsub w (vdiv (lscale 3 r0) L)).
Proof.
  intros HL. revert r0.
  induction w as [|x w IH]; intros [|z r0]; simpl; try constructor.
  - field. exact HL.
  - apply IH.
Qed.

(** C7 (amended) -- For every Hermite path (a control matrix of four rows)
    the [v0] setter stores
    [speed / 3 * (timeRange.second - timeRange.first)] in row 1, the [v1]
    setter stores row 3 minus that quantity in row 2, and both set
    [hermiteLength_] to [-1].  After [v0(w)] the [v0] getter returns
    [w - 3 * row(0) / (timeRange.second - timeRange.first)] when the time
    range has a non-zero length; this is [w] when [w] has as many
    coefficients as the rows and row 0 is zero, as the constructor leaves
    it.  When the time range has zero length the getter divides by zero. *)
Theorem Hermite_velocity_setters (h : Hermite) (w : vector_t) :
  List.length (parameters_ h) = 4%nat ->
  row (set_v0 h w) 1 = vscale (vdiv w 3) (Hermite_span h)
  /\ hermiteLength_ (set_v0 h w) = -1
  /\ row (set_v1 h w) 2
     = vsub (row h 3) (vscale (vdiv w 3) (Hermite_span h))
  /\ hermiteLength_ (set_v1 h w) = -1
  /\ (~ Hermite_span h == 0 ->
      exists r,
        v0 (set_v0 h w) = Ret r
        /\ veq r (vsub w (vdiv (lscale 3 (row h 0)) (Hermite_span h)))
        /\ (List.length (row h 0) = List.length w ->
            Forall (fun x => x == 0) (row h 0) -> veq r w))
  /\ (Hermite_span h == 0 -> w <> [] -> row h 0 <> [] ->
      v0 (set_v0 h w) = Fault non_finite)
  /\ (forall nv : nat,
        Hermite_wf nv h ->
        List.length w = nv ->
        ~ Hermite_span h == 0 ->
        exists r, v0 (set_v0 h w) = Ret r /\ veq r w).
Proof.
  intros H4.
  assert (H1 : row (set_v0 h w) 1 = vscale (vdiv w 3) (Hermite_span h)).
  { unfold row, set_v0; cbn [parameters_]. apply nth_set_row_same. lia. }
  assert (H0 : row (set_v0 h w) 0 = row h 0).
  { unfold row, set_v0; cbn [parameters_]. now apply nth_set_row_other. }
  assert (Hget : v0 (set_v0 h w)
                 = vdiv_checked
                     (lscale 3 (vsub (vscale (vdiv w 3) (Hermite_span h))
                                     (row h 0)))
                     (Hermite_span h)).
  { unfold v0. rewrite H1, H0. reflexivity. }
  assert (Hround : forall nv : nat,
            Hermite_wf nv h -> List.length w = nv ->
            ~ Hermite_span h == 0 ->
            exists r, v0 (set_v0 h w) = Ret r /\ veq r w).
  { intros nv Hwf Hlen HL.
    pose proof (Hermite_wf_row0_length nv h Hwf) as Hr0.
    destruct Hwf as (_ & _ & Hz).
    rewrite Hget, vdiv_checked_nonzero by exact HL.
    eexists. split; [reflexivity|].
    exact (v0_formula_roundtrip w (row h 0) (Hermite_span h)
             (eq_trans Hr0 (eq_sym Hlen)) Hz HL). }
  split; [exact H1|]. split; [reflexivity|].
  split; [unfold row, set_v1; cbn [parameters_]; apply nth_set_row_same; lia|].
  split; [reflexivity|]. split; [|split; [|exact Hround]].
  - intros HL. rewrite Hget, vdiv_checked_nonzero by exact HL.
    eexists. split; [reflexivity|]. split.
    + now apply v0_formula_first_row.
    + intros Hlen Hz. now apply v0_formula_roundtrip.
  - intros HL Hw Hr0. rewrite Hget.
    destruct w as [|x w]; [now contradiction Hw|].
    destruct (row h 0) as [|z r0]; [now contradiction Hr0|].
    cbn [vdiv vscale lscale vsub vzip map vdiv_checked].
    apply Qeq_bool_iff in HL. now rewrite HL.
Qed.

Lemma Hermite_velocity_setters_witness :
  ~ Hermite_span (Sample.hermite None [0] [1] (0, 2)) == 0
  /\ Hermite_span (Sample.hermite None [0] [1] (1, 1)) == 0
  /\ row (set_v0 (Sample.hermite None [0] [1] (0, 2)) [3]) 1
     = vscale (vdiv [3] 3) (Hermite_span (Sample.hermite None [0] [1] (0, 2)))
  /\ (exists r, v0 (set_v0 (Sample.hermite None [0] [1] (0, 2)) [3]) = Ret r
                /\ veq r [3])
  /\ v0 (set_v0 (Sample.hermite None [0] [1] (1, 1)) [3]) = Fault non_finite.
Proof.
  assert (HL : ~ Hermite_span (Sample.hermite None [0] [1] (0, 2)) == 0).
  { vm_compute. discriminate. }
  assert (HZ : Hermite_span (Sample.hermite None [0] [1] (1, 1)) == 0).
  { reflexivity. }
  split; [exact HL|]. split; [exact HZ|].
  pose proof (Hermite_velocity_setters (Sample.hermite None [0] [1] (0, 2))
                [3] eq_refl) as H.
  pose proof (Hermite_velocity_setters (Sample.hermite None [0] [1] (1, 1))
                [3] eq_refl) as H'.
  split; [exact (proj1 H)|]. split.
  - destruct (proj1 (proj2 (proj2 (proj2 (proj2 H)))) HL)
      as (r & Hr & _ & Hz).
    exists r. split; [exact Hr|]. apply Hz; [reflexivity|].
    repeat constructor.
  - apply (proj1 (proj2 (proj2 (proj2 (proj2 (proj2 H'))))) HZ);
      discriminate.
Defined.

(** The getter subtracts row 0 (line 133), which the setter does not store
    (line 123): over [[0, 2]], with row 0 equal to [1], the velocity [3]
    that was set comes back as [3 - 3 * 1 / 2]. *)
Lemma Hermite_v0_getter_first_row :
  let h := {| hermite_base := Path_ctor (0, 2) 1 1 None;
              parameters_ := [[1]; [0]; [1]; [1]];
              init_ := [0];
              end_ := [1];
              hermiteLength_ := -1 |} in
  exists r, v0 (set_v0 h [3]) = Ret r /\ veq r [3 # 2] /\ ~ veq r [3].
Proof.
  eexists. split; [reflexivity|]. split.
  - repeat constructor.
  - intros H. inversion H as [|? ? ? ? Hx _]; subst. discriminate Hx.
Qed.

(** C7 (as stated) fails on a Hermite path whose time range has zero
    length: row 1 becomes [3 / 3 * 0] and the getter divides [3 * (0 - 0)]
    by zero, so it does not return the velocity [3] that was set. *)
Lemma Hermite_v0_getter_zero_span :
  Hermite_wf 1 (Sample.hermite None [0] [1] (1, 1))
  /\ v0 (set_v0 (Sample.hermite None [0] [1] (1, 1)) [3]) = Fault non_finite
  /\ ~ (exists r, v0 (set_v0 (Sample.hermite None [0] [1] (1, 1)) [3]) = Ret r
                  /\ veq r [3]).
Proof.
  split; [|split].
  - repeat split; simpl; repeat constructor.
  - reflexivity.
  - intros [r [H _]]. discriminate H.
Qed.

(** ** The children of a bisection *)

Lemma veqb_veq (a b : vector_t) : veqb a b = true <-> veq a b.
Proof.
  revert b. induction a as [|x a IH]; intros [|y b]; simpl; split; intros H;
    try discriminate; try constructor; try (now inversion H).
  - apply andb_true_iff in H. now apply Qeq_bool_iff.
  - apply andb_true_iff in H. apply IH. tauto.
  - inversion H; subst. apply andb_true_iff. split.
    + now apply Qeq_bool_iff.
    + now apply IH.
Qed.

(** C4 (amended) -- In the revision of lines 236-250 the left child is
    given [v0 = parent.v0 / 2] and [v1 = velocity(0.5) / 2], the right child
    [v0 = velocity(0.5) / 2] and [v1 = parent.v1 / 2].  In the revisions of
    lines 575-592 and of [src/path.cc] the children are steered over the two
    halves of the parent's time range and are given the same velocities
    without the division: [parent.v0] and [velocity(t)] on the left,
    [velocity(t)] and [parent.v1] on the right, [t] being the middle of the
    time range. *)
Theorem recurse_children_velocities (rev : revision) (E : Collaborators)
  (cs : option ConstraintSet) (path : Hermite) (q1 : Configuration_t)
  (l0 r0 : Hermite) (pv0 pv1 : vector_t) :
  let tr := timeRange (hermite_base path) in
  let t := recurse_t rev path in
  steer_child rev E cs (init_ path) q1 (fst tr, t) = Ret l0 ->
  steer_child rev E cs q1 (end_ path) (t, snd tr) = Ret r0 ->
  v0 path = Ret pv0 ->
  v1 path = Ret pv1 ->
  recurse_children rev E cs path q1
  = Ret match rev with
        | RevA => halved_children E l0 r0 pv0 pv1 (velocity E path (1 # 2))
        | RevB | RevC =>
            plain_children E l0 r0 pv0 pv1
              (velocity E path (fst tr + (snd tr - fst tr) / 2))
        end.
Proof.
  intros tr t Hl Hr Hv0 Hv1. unfold recurse_children.
  fold tr. fold t. rewrite Hl. cbn [bind]. rewrite Hv0. cbn [bind].
  rewrite Hr. cbn [bind]. rewrite Hv1. cbn [bind].
  destruct rev; reflexivity.
Qed.

Lemma recurse_children_velocities_witness :
  recurse_children RevA Sample.E None Sample.parent [2]
  = Ret (halved_children Sample.E
           (Sample.hermite None [0] [2] (0, 1))
           (Sample.hermite None [2] [4] (0, 1))
           [3 * (6 / 3 * (2 - 0) - 0) / (2 - 0)]
           [3 * (4 - 0 - (4 - 0 - 6 / 3 * (2 - 0))) / (2 - 0)]
           (velocity Sample.E Sample.parent (1 # 2)))
  /\ recurse_children RevC Sample.E None Sample.parent [2]
     = Ret (plain_children Sample.E
              (Sample.hermite None [0] [2] (0, 0 + (2 - 0) / 2))
              (Sample.hermite None [2] [4] (0 + (2 - 0) / 2, 2))
              [3 * (6 / 3 * (2 - 0) - 0) / (2 - 0)]
              [3 * (4 - 0 - (4 - 0 - 6 / 3 * (2 - 0))) / (2 - 0)]
              (velocity Sample.E Sample.parent (0 + (2 - 0) / 2))).
Proof.
  split.
  - exact (recurse_children_velocities RevA Sample.E None Sample.parent [2]
             _ _ _ _ eq_refl eq_refl eq_refl eq_refl).
  - exact (recurse_children_velocities RevC Sample.E None Sample.parent [2]
             _ _ _ _ eq_refl eq_refl eq_refl eq_refl).
Defined.

(** C4 (as stated) fails on the revision of lines 575-592: the left child
    of the sample parent is given [v0 = 6], the parent's own [v0], where
    halving would give [3]; its row 1 is [6 / 3 * 1] and not [3 / 3 * 1]. *)
Lemma recurse_children_RevB_not_halved :
  exists left_ right_ l0 r0 pv0 pv1,
    steer_child RevB Sample.E None (init_ Sample.parent) [2] (0, 1) = Ret l0
    /\ steer_child RevB Sample.E None [2] (end_ Sample.parent) (1, 2) = Ret r0
    /\ v0 Sample.parent = Ret pv0
    /\ v1 Sample.parent = Ret pv1
    /\ recurse_children RevB Sample.E None Sample.parent [2]
       = Ret (left_, right_)
    /\ match v0 left_ with Ret r => veqb r pv0 | _ => false end = true
    /\ veqb (row left_ 1)
            (row (fst (halved_children Sample.E l0 r0 pv0 pv1
                         (velocity Sample.E Sample.parent 1))) 1)
       = false
    /\ (left_, right_)
       <> halved_children Sample.E l0 r0 pv0 pv1
            (velocity Sample.E Sample.parent 1).
Proof.
  do 6 eexists.
  split; [reflexivity|]. split; [reflexivity|].
  split; [reflexivity|]. split; [reflexivity|].
  split; [reflexivity|].
  split; [vm_compute; reflexivity|].
  split; [vm_compute; reflexivity|].
  intros H. apply (f_equal (fun c => row (fst c) 1)) in H.
  vm_compute in H. discriminate H.
Qed.

(** In the revisions with time ranges the halving is carried by the
    setter: over a child time range half as long as the parent's span [L],
    the row stored for the unhalved velocity is the row the halved velocity
    gives over the whole span. *)
Lemma set_v0_half_span (h : Hermite) (v : vector_t) (a L : value_type) :
  (2 <= List.length (parameters_ h))%nat ->
  timeRange (hermite_base h) = (a, a + L / 2) ->
  veq (row (set_v0 h v) 1) (vscale (vdiv (vdiv v 2) 3) L).
Proof.
  intros Hrows Htr. unfold row, set_v0; cbn [parameters_].
  rewrite nth_set_row_same by lia.
  unfold Hermite_span. rewrite Htr. cbn [fst snd].
  unfold vscale, vdiv. rewrite !map_map.
  apply veq_map. intros x. field.
Qed.

(** ** The stopping test of [recurse] *)

Section RecurseStop.

Variables (rev : revision) (E : Collaborators) (rh : RecursiveHermite)
          (cs : option ConstraintSet).
Variables (path : Hermite) (proj : PathVector) (acceptThr : value_type).
Variables (q1 : Configuration_t) (left_ right_ : Hermite).

Hypothesis not_accepted : Qlt_bool (hermiteLength_ path) acceptThr = false.
Hypothesis midpoint : eval E path (recurse_t rev path) = (q1, true).
Hypothesis children : recurse_children rev E cs path q1 = Ret (left_, right_).




End RecurseStop.






(** ** The acceptance threshold of [project] *)

(** In the revisions of line 130 and of [src/path.cc] the threshold is
    [2 * errorThreshold / M]. *)
Lemma project_thr_RevA_RevC (rh : RecursiveHermite) (cp : ConfigProjector) :
  project_thr RevA rh cp = 2 * errorThreshold cp / M_ rh
  /\ project_thr RevC rh cp = 2 * errorThreshold cp / M_ rh.
Proof. split; reflexivity. Qed.

(** The threshold of [project] is the quotient [project_thr] whenever the
    divisor is not zero, and only then. *)
Lemma project_thr_checked_Ret (rev : revision) (rh : RecursiveHermite)
  (cp : ConfigProjector) (thr : value_type) :
  project_thr_checked rev rh cp = Ret thr <->
  thr = project_thr rev rh cp /\ (rev = RevB \/ ~ M_ rh == 0).
Proof.
  unfold project_thr_checked. split.
  - intros H. destruct rev;
      [destruct (Qeq_bool (M_ rh) 0) eqn:HM; [discriminate|]
      | | destruct (Qeq_bool (M_ rh) 0) eqn:HM; [discriminate|]];
      injection H as <-; (split; [reflexivity|]); try (now left);
      right; intros H0; apply Qeq_bool_iff in H0; congruence.
  - intros [-> [-> | HM]]; [reflexivity|].
    destruct (Qeq_bool (M_ rh) 0) eqn:Hb.
    + apply Qeq_bool_iff in Hb. contradiction.
    + destruct rev; reflexivity.
Qed.

Lemma project_loop_ext (E : Collaborators) (rec rec' : recursion)
  (outSize outDerivSize : size_type) (thr : value_type)
  (ps : list (option Hermite)) (res : PathVector) :
  (forall p r, rec p r thr = rec' p r thr) ->
  project_loop E rec outSize outDerivSize thr ps res
  = project_loop E rec' outSize outDerivSize thr ps res.
Proof.
  intros Hext. revert res.
  induction ps as [|p ps IH]; intros res; simpl; [reflexivity|].
  destruct p as [p|]; cbn [deref bind]; [|reflexivity].
  destruct (Qlt_bool (hermiteLengthOf E p) thr).
  - apply IH.
  - rewrite Hext.
    destruct (rec' (computeHermiteLength E p)
                (PathVector_create outSize outDerivSize) thr)
      as [[ok r]| | |]; cbn [bind]; try reflexivity.
    destruct ok; cbn [negb]; [apply IH | reflexivity].
Qed.

(** [project] hands no other threshold to [recurse] than [project_thr]:
    two recursions that agree at that threshold give the same projection. *)
Lemma project_recurse_threshold (rec rec' : option ConstraintSet -> recursion)
  (rev : revision) (E : Collaborators) (rh : RecursiveHermite)
  (path : PathPtr_t) (proj : option PathPtr_t) :
  (forall cs cp p r,
     constraints (base_of path) = Some cs ->
     configProjector cs = Some cp ->
     rec (Some cs) p r (project_thr rev rh cp)
     = rec' (Some cs) p r (project_thr rev rh cp)) ->
  project_with rec rev E rh path proj = project_with rec' rev E rh path proj.
Proof.
  intros Hext. unfold project_with.
  destruct (constraints (base_of path)) as [cs|] eqn:Hcs; [|reflexivity].
  destruct (deref (Path_initial path)) as [qi| | |]; cbn [bind];
    try reflexivity.
  destruct (deref (Path_end path)) as [qe| | |]; cbn [bind]; try reflexivity.
  destruct (negb (isSatisfied cs qe)); [reflexivity|].
  destruct (configProjector cs) as [cp|] eqn:Hcp; [|reflexivity].
  destruct (dimension cp =? 0)%Z; [reflexivity|].
  destruct (project_thr_checked rev rh cp) as [thr| | |] eqn:Hthr;
    cbn [bind]; try reflexivity.
  apply project_thr_checked_Ret in Hthr. destruct Hthr as [-> _].
  destruct (project_pieces rev E rh (Some cs) path) as [ps| | |]; cbn [bind];
    try reflexivity.
  rewrite (project_loop_ext E (rec (Some cs)) (rec' (Some cs)));
    [reflexivity|].
  intros p r. now apply Hext.
Qed.

(** C1 -- On the revision of lines 273-614 the threshold does not depend
    on [M]: with [errorThreshold = 1/10000] and [M = 1], [project] computes
    [2 * errorThreshold / 2 = 1/10000] and hands it to [recurse], where
    [2 * errorThreshold / M] is [2/10000]; the revision of line 130 hands
    over [2 * errorThreshold / M]. *)
Theorem project_thr_RevB_divides_by_two :
  project_thr RevB Sample.projector Sample.cp == 1 # 10000
  /\ 2 * errorThreshold Sample.cp / M_ Sample.projector == 2 # 10000
  /\ ~ project_thr RevB Sample.projector Sample.cp
       == 2 * errorThreshold Sample.cp / M_ Sample.projector
  /\ Sample.flag
       (project_with
          (Sample.probe (2 * errorThreshold Sample.cp / M_ Sample.projector))
          RevB Sample.E Sample.projector Sample.constrained None)
     = Some false
  /\ Sample.flag
       (project_with (Sample.probe (1 # 10000))
          RevB Sample.E Sample.projector Sample.constrained None)
     = Some true
  /\ Sample.flag
       (project_with
          (Sample.probe (2 * errorThreshold Sample.cp / M_ Sample.projector))
          RevA Sample.E Sample.projector Sample.constrained None)
     = Some true.
Proof.
  split; [reflexivity|]. split; [reflexivity|].
  split; [intros H; vm_compute in H; discriminate H|].
  split; [vm_compute; reflexivity|].
  split; vm_compute; reflexivity.
Qed.

(** ** Extraction through a time parameterization *)

Lemma base_of_set_base (p : PathPtr_t) (b : Path) : base_of (set_base p b) = b.
Proof. destruct p; reflexivity. Qed.

(** Whatever the shift computed at lines 189-215, the parameterization
    attached to the extracted path is a copy of the original one, and the
    parameter range is its image of [timeInterval]. *)
Lemma extract_attaches_copy (E : Collaborators) (p : PathPtr_t)
  (tp : TimeParameterization) (subInterval : interval_t) :
  timeParam_ (base_of p) = Some tp ->
  let paramInterval := (timeParameterization.value tp (fst subInterval),
                        timeParameterization.value tp (snd subInterval)) in
  let res := impl_extract E p paramInterval in
  let timeInterval :=
    snd (extract_shift subInterval paramInterval
           (fst (paramRange (base_of res)))) in
  timeParam_ (base_of (extract E p subInterval))
  = Some (timeParameterization.copy tp)
  /\ paramRange (base_of (extract E p subInterval))
     = (timeParameterization.value (timeParameterization.copy tp)
          (fst timeInterval),
        timeParameterization.value (timeParameterization.copy tp)
          (snd timeInterval)).
Proof.
  intros H paramInterval res timeInterval. unfold extract. rewrite H.
  fold paramInterval. fold res. unfold timeInterval.
  destruct (extract_shift subInterval paramInterval
              (fst (paramRange (base_of res)))) as [[shift_t shift_s] ti].
  rewrite base_of_set_base. split; reflexivity.
Qed.

(** When [impl_extract] returns a path over exactly the requested parameter
    interval and the sub-interval is not reversed, no shift is needed and
    the parameter range of the result is the extracted one. *)
Lemma extract_unshifted_paramRange (E : Collaborators) (p : PathPtr_t)
  (f : value_type -> value_type) (d : value_type -> size_type -> value_type)
  (subInterval : interval_t) :
  timeParam_ (base_of p) = Some (timeParameterization.Concrete f d) ->
  fst subInterval <= snd subInterval ->
  paramRange (base_of (impl_extract E p (f (fst subInterval), f (snd subInterval))))
  = (f (fst subInterval), f (snd subInterval)) ->
  paramRange (base_of (extract E p subInterval))
  = extract_pr E p subInterval.
Proof.
  intros Htp Hle Hres.
  pose proof (extract_attaches_copy E p _ subInterval Htp) as [_ Hpr].
  rewrite Hpr. unfold extract_pr. rewrite Htp.
  cbn [timeParameterization.value timeParameterization.copy].
  rewrite Hres. cbn [fst snd]. unfold extract_shift.
  apply Qlt_bool_false_iff in Hle. rewrite Hle.
  assert (Hz : Qeq_bool (f (fst subInterval) - f (fst subInterval)) 0 = true).
  { apply Qeq_bool_iff. ring. }
  cbn [fst snd]. rewrite Hz. cbn [negb snd fst]. reflexivity.
Qed.

(** C3 -- A path over [[0, 5]] with the time parameterization
    [t |-> 2 t + 1], whose [impl_extract] returns a sub-path with a parameter
    range starting at zero, is extracted over [[1, 2]].  The parameter
    interval is [[3, 5]], the sub-path's parameter range is [[0, 2]], and
    line 216 builds the shift by [(1, -3)] that would keep it.  The result
    carries the unshifted copy instead: its parameter range is [[1, 3]] and
    the assertion of line 221 is false. *)
Theorem extract_drops_the_shift :
  let p := Sample.segment None (Some Sample.affine) in
  interval_eqb (extract_pr Sample.E p (1, 2)) (0, 2) = true
  /\ extract_shifted_timeParam Sample.E p (1, 2)
     = Some (timeParameterization.Shift Sample.affine 1 (0 - (2 * 1 + 1)))
  /\ timeParam_ (base_of (extract Sample.E p (1, 2))) = Some Sample.affine
  /\ interval_eqb (paramRange (base_of (extract Sample.E p (1, 2)))) (1, 3)
     = true
  /\ extract_assertion Sample.E p (1, 2) = false
  /\ interval_eqb
       (paramRange
          (set_timeParameterization
             (base_of (impl_extract Sample.E p (2 * 1 + 1, 2 * 2 + 1)))
             (timeParameterization.Shift Sample.affine 1 (0 - (2 * 1 + 1)))
             (0, 2 - 1)))
       (extract_pr Sample.E p (1, 2))
     = true.
Proof.
  cbv zeta. repeat split; vm_compute; reflexivity.
Qed.

(** ** [impl_apply] *)

(** The early return of [project] at line 121 leaves the caller's pointer
    as it was. *)
Lemma project_end_unsatisfied (rec : option ConstraintSet -> recursion)
  (rev : revision) (E : Collaborators) (rh : RecursiveHermite)
  (path : PathPtr_t) (proj : option PathPtr_t) (cs : ConstraintSet)
  (qi qe : Configuration_t) :
  constraints (base_of path) = Some cs ->
  Path_initial path = Some qi ->
  Path_end path = Some qe ->
  isSatisfied cs qe = false ->
  project_with rec rev E rh path proj = Ret (false, proj).
Proof.
  intros Hcs Hqi Hqe Hsat. unfold project_with.
  rewrite Hcs, Hqi, Hqe. cbn [deref bind]. now rewrite Hsat.
Qed.

Lemma impl_apply_end_unsatisfied (fuel : nat) (E : Collaborators)
  (rh : RecursiveHermite) (b : Path) (qi qe : Configuration_t)
  (proj : option PathPtr_t) (cs : ConstraintSet) (cp : ConfigProjector) :
  constraints b = Some cs ->
  configProjector cs = Some cp ->
  isSatisfied cs qe = false ->
  impl_apply (S fuel) RevA E rh (OtherPathPtr b qi qe) proj = Ret (false, proj)
  /\ impl_apply (S fuel) RevC E rh (OtherPathPtr b qi qe) proj
     = Ret (false, proj).
Proof.
  intros Hcs Hcp Hsat. split; cbn [impl_apply base_of]; rewrite Hcs, Hcp;
    unfold project;
    rewrite (project_end_unsatisfied _ _ E rh (OtherPathPtr b qi qe) proj
               cs qi qe Hcs eq_refl eq_refl Hsat);
    reflexivity.
Qed.

(** A path of a class other than [PathVector] that carries no constraint
    set is returned as it is, and the closing assertions hold. *)
Lemma impl_apply_unconstrained (fuel : nat) (E : Collaborators)
  (rh : RecursiveHermite) (b : Path) (qi qe : Configuration_t)
  (proj : option PathPtr_t) :
  constraints b = None ->
  impl_apply (S fuel) RevA E rh (OtherPathPtr b qi qe) proj
  = Ret (true, Some (OtherPathPtr b qi qe))
  /\ impl_apply_assertions (OtherPathPtr b qi qe) true
       (Some (OtherPathPtr b qi qe)) = true.
Proof.
  intros Hcs. split.
  - cbn [impl_apply base_of]. rewrite Hcs. reflexivity.
  - unfold impl_apply_assertions, same_config, config_eqb. cbn.
    rewrite !Nat.eqb_refl. cbn.
    assert (Hz : forall q, forallb (fun x => Qeq_bool x 0) (vsub q q) = true).
    { induction q as [|x q IH]; [reflexivity|]. cbn. rewrite IH, andb_true_r.
      apply Qeq_bool_iff. ring. }
    now rewrite !Hz.
Qed.

(** C10 -- A straight segment whose constraint set has a config projector
    and rejects the end configuration is handed to [impl_apply] with an
    empty result pointer.  [impl_apply] returns [false] and the pointer is
    still empty, so that [assert(proj)] does not hold; the revision that
    ends with [proj->checkPath()] dereferences the empty pointer.  Wrapped
    in a path vector, the same segment yields an empty path vector, which
    has no initial configuration. *)
Theorem impl_apply_leaves_proj_null :
  let path := Sample.segment (Some Sample.never) None in
  let pv := PathVectorPtr (Path_ctor (0, 5) 1 1 None) [path] in
  (forall fuel,
     impl_apply (S fuel) RevA Sample.E Sample.projector path None
     = Ret (false, None))
  /\ (forall fuel,
        impl_apply (S fuel) RevC Sample.E Sample.projector path None
        = Ret (false, None))
  /\ impl_apply_assertions path false None = false
  /\ (forall fuel,
        impl_apply (S fuel) RevB Sample.E Sample.projector path None
        = Fault null_pointer)
  /\ (forall fuel,
        impl_apply (S (S fuel)) RevA Sample.E Sample.projector pv None
        = Ret (false, Some (PathVector_ptr (PathVector_create 1 1))))
  /\ Path_initial (PathVector_ptr (PathVector_create 1 1)) = None
  /\ impl_apply_assertions pv false
       (Some (PathVector_ptr (PathVector_create 1 1))) = false.
Proof.
  cbv zeta.
  pose proof (fun fuel =>
    impl_apply_end_unsatisfied fuel Sample.E Sample.projector
      (base_of (Sample.segment (Some Sample.never) None)) [0] [1] None
      Sample.never Sample.cp eq_refl eq_refl eq_refl) as H.
  change (OtherPathPtr (base_of (Sample.segment (Some Sample.never) None))
            [0] [1])
    with (Sample.segment (Some Sample.never) None) in H.
  split; [intros fuel; exact (proj1 (H fuel))|].
  split; [intros fuel; exact (proj2 (H fuel))|].
  split; [reflexivity|].
  split; [intros fuel; reflexivity|].
  split; [|split; reflexivity].
  intros fuel.
  change (impl_apply (S (S fuel)) RevA Sample.E Sample.projector
            (PathVectorPtr (Path_ctor (0, 5) 1 1 None)
               [Sample.segment (Some Sample.never) None]) None)
    with ('(ok, part) <- impl_apply (S fuel) RevA Sample.E Sample.projector
                           (Sample.segment (Some Sample.never) None) None ;;
          Ret (false, Some (PathVector_ptr (PathVector_create 1 1)))).
  rewrite (proj1 (H fuel)). reflexivity.
Qed.

(* ================================================================== *)
(** * Further properties *)
(* ================================================================== *)

(** ** Shifted time parameterizations as functions *)

Section ShiftSemantics.

Import timeParameterization.

Lemma value_proper (tp : TimeParameterization) (x y : Q) :
  well_behaved tp -> x == y -> value tp x == value tp y.
Proof.
  revert x y. induction tp as [f d | tp' IH t' s']; intros x y Hwb Hxy.
  - destruct Hwb as [Hf _]. now apply Hf.
  - simpl. rewrite (IH (x + t') (y + t') Hwb); [reflexivity|].
    now rewrite Hxy.
Qed.

Lemma derivative_proper (tp : TimeParameterization) (x y : Q)
  (order : size_type) :
  well_behaved tp -> x == y -> derivative tp x order == derivative tp y order.
Proof.
  revert x y. induction tp as [f d | tp' IH t' s']; intros x y Hwb Hxy.
  - destruct Hwb as [_ Hd]. now apply Hd.
  - simpl. apply IH; [exact Hwb | now rewrite Hxy].
Qed.

Lemma well_behaved_create (tp : TimeParameterization) (t s : Q) :
  well_behaved tp -> well_behaved (create tp t s).
Proof. destruct tp; simpl; auto. Qed.

Lemma well_behaved_createWithCheck (tp : TimeParameterization)
  (t s : Q) :
  well_behaved tp -> well_behaved (createWithCheck tp t s).
Proof.
  intros H. unfold createWithCheck.
  destruct (Qeq_bool t 0 && Qeq_bool s 0); [exact H|].
  now apply well_behaved_create.
Qed.

Lemma well_behaved_copy (tp : TimeParameterization) :
  well_behaved tp -> well_behaved (copy tp).
Proof.
  induction tp as [f d | tp' IH t' s']; simpl; intros H; [exact H|].
  apply well_behaved_create. now apply IH.
Qed.

(** Whether [create] folds or wraps, the object it returns is the shifted
    function. *)
Lemma create_value (tp : TimeParameterization) (t s x : Q) :
  well_behaved tp -> value (create tp t s) x == value tp (x + t) + s.
Proof.
  intros Hwb. destruct tp as [f d | tp' t' s']; simpl; [reflexivity|].
  rewrite (value_proper tp' (x + (t' + t)) (x + t + t') Hwb) by qring.
  qring.
Qed.

Lemma create_derivative (tp : TimeParameterization) (t s x : Q)
  (order : size_type) :
  well_behaved tp ->
  derivative (create tp t s) x order == derivative tp (x + t) order.
Proof.
  intros Hwb. destruct tp as [f d | tp' t' s']; simpl; [reflexivity|].
  apply derivative_proper; [exact Hwb | qring].
Qed.

Lemma createWithCheck_value (tp : TimeParameterization) (t s x : Q) :
  well_behaved tp ->
  value (createWithCheck tp t s) x == value tp (x + t) + s.
Proof.
  intros Hwb. unfold createWithCheck.
  destruct (Qeq_bool t 0 && Qeq_bool s 0) eqn:Hz.
  - apply andb_true_iff in Hz. destruct Hz as [Ht Hs].
    apply Qeq_bool_iff in Ht. apply Qeq_bool_iff in Hs.
    rewrite (value_proper tp (x + t) x Hwb) by (rewrite Ht; qring).
    rewrite Hs. qring.
  - now apply create_value.
Qed.

Lemma createWithCheck_derivative (tp : TimeParameterization)
  (t s x : Q) (order : size_type) :
  well_behaved tp ->
  derivative (createWithCheck tp t s) x order
  == derivative tp (x + t) order.
Proof.
  intros Hwb. unfold createWithCheck.
  destruct (Qeq_bool t 0 && Qeq_bool s 0) eqn:Hz.
  - apply andb_true_iff in Hz. destruct Hz as [Ht _].
    apply Qeq_bool_iff in Ht.
    apply derivative_proper; [exact Hwb | rewrite Ht; qring].
  - now apply create_derivative.
Qed.

Lemma Sample_affine_well_behaved : well_behaved Sample.affine.
Proof.
  split.
  - intros x y H. now rewrite H.
  - intros x y order H. reflexivity.
Qed.

(** X1 -- Two shifts applied one after the other through
    [createWithCheck] are the shift by the sums of the offsets: the value is
    that of the original parameterization at [x + (t1 + t2)], plus
    [s1 + s2], and the derivative is the original one at [x + (t1 + t2)].
    In particular shifting by [(t, s)] and then by [(-t, -s)] gives back the
    original function. *)
Theorem createWithCheck_composes (tp : TimeParameterization)
  (t1 s1 t2 s2 x : Q) (order : size_type) :
  well_behaved tp ->
  value (createWithCheck (createWithCheck tp t1 s1) t2 s2) x
  == value tp (x + (t1 + t2)) + (s1 + s2)
  /\ derivative (createWithCheck (createWithCheck tp t1 s1) t2 s2) x order
     == derivative tp (x + (t1 + t2)) order
  /\ value (createWithCheck (createWithCheck tp t1 s1) (- t1) (- s1)) x
     == value tp x.
Proof.
  intros Hwb.
  pose proof (well_behaved_createWithCheck tp t1 s1 Hwb) as Hwb1.
  split; [|split].
  - rewrite createWithCheck_value by exact Hwb1.
    rewrite createWithCheck_value by exact Hwb.
    rewrite (value_proper tp (x + t2 + t1) (x + (t1 + t2)) Hwb) by qring.
    qring.
  - rewrite createWithCheck_derivative by exact Hwb1.
    rewrite createWithCheck_derivative by exact Hwb.
    apply derivative_proper; [exact Hwb | qring].
  - rewrite createWithCheck_value by exact Hwb1.
    rewrite createWithCheck_value by exact Hwb.
    rewrite (value_proper tp (x + - t1 + t1) x Hwb) by qring.
    qring.
Qed.

Lemma createWithCheck_composes_witness :
  well_behaved Sample.affine
  /\ value (createWithCheck (createWithCheck Sample.affine 1 (-3)) 2 5) 4
     == value Sample.affine (4 + (1 + 2)) + (-3 + 5).
Proof.
  split; [exact Sample_affine_well_behaved|].
  exact (proj1 (createWithCheck_composes Sample.affine 1 (-3) 2 5 4 1%Z
                  Sample_affine_well_behaved)).
Defined.

Lemma copy_value (tp : TimeParameterization) (x : Q) :
  well_behaved tp -> value (copy tp) x == value tp x.
Proof.
  intros Hwb. revert x.
  induction tp as [f d | tp' IH t' s']; intros x; simpl; [reflexivity|].
  rewrite create_value by now apply well_behaved_copy.
  now rewrite IH.
Qed.

Lemma copy_derivative (tp : TimeParameterization) (x : Q) (order : size_type) :
  well_behaved tp -> derivative (copy tp) x order == derivative tp x order.
Proof.
  intros Hwb. revert x.
  induction tp as [f d | tp' IH t' s']; intros x; simpl; [reflexivity|].
  rewrite create_derivative by now apply well_behaved_copy.
  now apply IH.
Qed.

(** X2 -- The copy of a time parameterization is the same function, value
    and derivative, and is in normal form whatever the nesting of the
    original. *)
Theorem copy_same_function (tp : TimeParameterization) (x : Q)
  (order : size_type) :
  well_behaved tp ->
  value (copy tp) x == value tp x
  /\ derivative (copy tp) x order == derivative tp x order
  /\ canonical (copy tp) = true.
Proof.
  intros Hwb. split; [|split].
  - now apply copy_value.
  - now apply copy_derivative.
  - apply copy_canonical.
Qed.

Lemma copy_same_function_witness :
  well_behaved (Shift (Shift Sample.affine 1 (-3)) 2 5)
  /\ value (copy (Shift (Shift Sample.affine 1 (-3)) 2 5)) 4
     == value (Shift (Shift Sample.affine 1 (-3)) 2 5) 4
  /\ canonical (Shift (Shift Sample.affine 1 (-3)) 2 5) = false
  /\ canonical (copy (Shift (Shift Sample.affine 1 (-3)) 2 5)) = true.
Proof.
  pose proof (copy_same_function (Shift (Shift Sample.affine 1 (-3)) 2 5) 4
                1%Z Sample_affine_well_behaved) as H.
  split; [exact Sample_affine_well_behaved|].
  split; [exact (proj1 H)|].
  split; [reflexivity | exact (proj2 (proj2 H))].
Defined.

(** X3 -- However many shifts are applied in a row, the nesting of [Shift]
    wrappers does not grow: it stays at most one over a parameterization in
    normal form, and never exceeds the nesting of the original otherwise. *)
Theorem shift_all_depth (tp : TimeParameterization)
  (shifts : list (value_type * value_type)) :
  (depth (shift_all tp shifts) <= Nat.max 1 (depth tp))%nat.
Proof.
  revert tp. induction shifts as [|[t s] shifts IH]; intros tp.
  - unfold shift_all. cbn [fold_left]. lia.
  - assert (Hd : (depth (createWithCheck tp t s) <= Nat.max 1 (depth tp))%nat).
    { unfold createWithCheck.
      destruct (Qeq_bool t 0 && Qeq_bool s 0); [lia|].
      destruct tp; cbn [create depth]; lia. }
    change (shift_all tp ((t, s) :: shifts))
      with (shift_all (createWithCheck tp t s) shifts).
    eapply Nat.le_trans; [apply IH|]. lia.
Qed.

End ShiftSemantics.

(** ** More on [Path::derivative], [Path::extract] and [Path::serialize] *)

(** X4 -- Through a time parameterization [Path::derivative] throws
    [std::invalid_argument] for every order other than 1 and 2, order 0 and
    negative orders included, although the message speaks of an order
    greater than 2; it does so before any call to [impl_derivative], so
    that the outcome depends neither on the path's own derivatives nor on
    the time. *)
Theorem derivative_other_orders_throw (E : Collaborators) (p : PathPtr_t)
  (tp : TimeParameterization) (t : value_type) (order : size_type) :
  timeParam_ (base_of p) = Some tp ->
  (order <= 0)%Z \/ (2 < order)%Z ->
  derivative E p t order
  = Throw (invalid_argument
             "Cannot compute the derivative of order greater than 2.")
  /\ (forall (E' : Collaborators) (t' : value_type),
        derivative E' p t' order = derivative E p t order).
Proof.
  intros Htp Horder.
  assert (H1 : order <> 1%Z) by lia.
  assert (H2 : order <> 2%Z) by lia.
  split.
  - exact (derivative_unsupported_order E p tp t order Htp H1 H2).
  - intros E' t'.
    rewrite (derivative_unsupported_order E p tp t order Htp H1 H2).
    exact (derivative_unsupported_order E' p tp t' order Htp H1 H2).
Qed.

Lemma derivative_other_orders_throw_witness :
  (0 <= 0)%Z
  /\ derivative Sample.E (Sample.segment None (Some Sample.affine)) 1 0%Z
     = Throw (invalid_argument
                "Cannot compute the derivative of order greater than 2.")
  /\ derivative Sample.E (Sample.segment None (Some Sample.affine)) 1 (-1)%Z
     = Throw (invalid_argument
                "Cannot compute the derivative of order greater than 2.").
Proof.
  assert (H0 : (0 <= 0)%Z) by lia.
  assert (Hm : (-1 <= 0)%Z) by lia.
  split; [exact H0|]. split.
  - exact (proj1 (derivative_other_orders_throw Sample.E
                    (Sample.segment None (Some Sample.affine)) Sample.affine
                    1 0%Z eq_refl (or_introl H0))).
  - exact (proj1 (derivative_other_orders_throw Sample.E
                    (Sample.segment None (Some Sample.affine)) Sample.affine
                    1 (-1)%Z eq_refl (or_introl Hm))).
Defined.

Lemma extract_timeRange (E : Collaborators) (p : PathPtr_t)
  (tp : TimeParameterization) (subInterval : interval_t) :
  timeParam_ (base_of p) = Some tp ->
  timeRange_ (base_of (extract E p subInterval))
  = snd (extract_shift subInterval
           (timeParameterization.value tp (fst subInterval),
            timeParameterization.value tp (snd subInterval))
           (fst (paramRange (base_of (impl_extract E p
              (timeParameterization.value tp (fst subInterval),
               timeParameterization.value tp (snd subInterval))))))).
Proof.
  intros H. unfold extract. rewrite H.
  destruct (extract_shift _ _ _) as [[shift_t shift_s] ti].
  rewrite base_of_set_base. reflexivity.
Qed.

(** X5 -- Extracted through a time parameterization, a sub-interval keeps
    its duration, reversed or not and whether or not the sub-path was
    rebased: the time range of the result has length
    [|subInterval.second - subInterval.first|]; and the parameterization
    attached to the result is in normal form. *)
Theorem extract_keeps_duration (E : Collaborators) (p : PathPtr_t)
  (tp : TimeParameterization) (subInterval : interval_t) :
  timeParam_ (base_of p) = Some tp ->
  length (base_of (extract E p subInterval))
  == Qabs (snd subInterval - fst subInterval)
  /\ fst (timeRange_ (base_of (extract E p subInterval)))
     <= snd (timeRange_ (base_of (extract E p subInterval)))
  /\ exists tp', timeParam_ (base_of (extract E p subInterval)) = Some tp'
                 /\ timeParameterization.canonical tp' = true.
Proof.
  intros Htp.
  pose proof (extract_timeRange E p tp subInterval Htp) as Htr.
  pose proof (extract_attaches_copy E p tp subInterval Htp) as [Hcopy _].
  unfold length. rewrite Htr. clear Htr.
  destruct subInterval as [a b]. unfold extract_shift. cbn [fst snd].
  split; [|split].
  - destruct (Qlt_bool b a) eqn:Hrev.
    + apply Qlt_bool_iff in Hrev.
      assert (Habs : Qabs (b - a) == a - b).
      { rewrite Qabs_neg by lra. ring. }
      rewrite Habs.
      destruct (negb (Qeq_bool _ 0)); cbn [fst snd]; ring.
    + apply Qlt_bool_false_iff in Hrev.
      assert (Habs : Qabs (b - a) == b - a) by (apply Qabs_pos; lra).
      rewrite Habs.
      destruct (negb (Qeq_bool _ 0)); cbn [fst snd]; ring.
  - destruct (Qlt_bool b a) eqn:Hrev.
    + apply Qlt_bool_iff in Hrev.
      destruct (negb (Qeq_bool _ 0)); cbn [fst snd]; lra.
    + apply Qlt_bool_false_iff in Hrev.
      destruct (negb (Qeq_bool _ 0)); cbn [fst snd]; lra.
  - eexists. split; [exact Hcopy | apply copy_canonical].
Qed.

Lemma extract_keeps_duration_witness :
  timeParam_ (base_of (Sample.segment None (Some Sample.affine)))
  = Some Sample.affine
  /\ length (base_of (extract Sample.E
                        (Sample.segment None (Some Sample.affine)) (4, 1)))
     == Qabs (1 - 4).
Proof.
  split; [reflexivity|].
  exact (proj1 (extract_keeps_duration Sample.E
                  (Sample.segment None (Some Sample.affine)) Sample.affine
                  (4, 1) eq_refl)).
Defined.

(** X6 -- When [impl_extract] returns a sub-path over the requested
    parameter interval itself (lower bound first when the sub-interval is
    reversed), no shift is needed and the assertion
    [pr == res->paramRange()] that closes [Path::extract] holds, for every
    time parameterization, shifted ones included. *)
Theorem extract_assertion_unshifted (E : Collaborators) (p : PathPtr_t)
  (tp : TimeParameterization) (subInterval : interval_t) :
  timeParam_ (base_of p) = Some tp ->
  well_behaved tp ->
  let paramInterval := (timeParameterization.value tp (fst subInterval),
                        timeParameterization.value tp (snd subInterval)) in
  let pr := paramRange (base_of (impl_extract E p paramInterval)) in
  (fst subInterval <= snd subInterval
   /\ fst pr == fst paramInterval /\ snd pr == snd paramInterval)
  \/ (snd subInterval < fst subInterval
      /\ fst pr == snd paramInterval /\ snd pr == fst paramInterval) ->
  extract_assertion E p subInterval = true.
Proof.
  intros Htp Hwb paramInterval pr Hcase.
  pose proof (extract_attaches_copy E p tp subInterval Htp) as [_ Hrange].
  unfold extract_assertion, extract_pr. rewrite Htp, Hrange. clear Hrange.
  fold paramInterval. fold pr.
  unfold interval_eqb, extract_shift. cbn [fst snd].
  destruct Hcase as [(Hle & H1 & H2) | (Hlt & H1 & H2)].
  - apply Qlt_bool_false_iff in Hle. rewrite Hle.
    assert (Hz : Qeq_bool (fst pr - fst paramInterval) 0 = true).
    { apply Qeq_bool_iff. rewrite H1. qring. }
    cbn [fst snd] in Hz. rewrite Hz. cbn [negb fst snd].
    apply andb_true_iff. split; apply Qeq_bool_iff.
    + rewrite copy_value by exact Hwb. exact H1.
    + rewrite copy_value by exact Hwb. exact H2.
  - apply Qlt_bool_iff in Hlt. rewrite Hlt.
    assert (Hz : Qeq_bool (fst pr - snd paramInterval) 0 = true).
    { apply Qeq_bool_iff. rewrite H1. qring. }
    cbn [fst snd] in Hz. rewrite Hz. cbn [negb fst snd].
    apply andb_true_iff. split; apply Qeq_bool_iff.
    + rewrite copy_value by exact Hwb. exact H1.
    + rewrite copy_value by exact Hwb. exact H2.
Qed.

Lemma extract_assertion_unshifted_witness :
  well_behaved (timeParameterization.Shift Sample.affine 1 (-3))
  /\ extract_assertion Sample.keeping
       (Sample.segment None
          (Some (timeParameterization.Shift Sample.affine 1 (-3)))) (4, 1)
     = true.
Proof.
  split; [exact Sample_affine_well_behaved|].
  apply (extract_assertion_unshifted Sample.keeping
           (Sample.segment None
              (Some (timeParameterization.Shift Sample.affine 1 (-3))))
           (timeParameterization.Shift Sample.affine 1 (-3)) (4, 1) eq_refl
           Sample_affine_well_behaved).
  right. split; [reflexivity|]. split; reflexivity.
Defined.

(** X7 -- What [Path::serialize] saves it loads back: saving a path without
    time parameterization appends five members to the archive, and loading
    them into an object gives it the saved time range, sizes and
    constraints, recomputes its parameter range from the loaded time range,
    and leaves the rest of the archive.  Loaded into an object without time
    parameterization, a path whose parameter range is its time range is
    restored as it was. *)
Theorem serialize_roundtrip (p p0 : Path) (before rest : list nvp) :
  timeParam_ p = None ->
  exists saved,
    serialize p {| is_saving := true; content := before |}
    = Ret (p, {| is_saving := true; content := before ++ saved |})
    /\ serialize p0 {| is_saving := false; content := saved ++ rest |}
       = Ret (set_timeRange
                {| paramRange_ := paramRange_ p0;
                   timeRange_ := timeRange_ p;
                   outputSize_ := outputSize_ p;
                   outputDerivativeSize_ := outputDerivativeSize_ p;
                   constraints_ := constraints_ p;
                   timeParam_ := timeParam_ p0 |} (timeRange_ p),
              {| is_saving := false; content := rest |})
    /\ (timeParam_ p0 = None -> paramRange_ p = timeRange_ p ->
        serialize p0 {| is_saving := false; content := saved ++ rest |}
        = Ret (p, {| is_saving := false; content := rest |})).
Proof.
  intros Htp.
  exists [nvp_timeRange (timeRange_ p); nvp_outputSize (outputSize_ p);
          nvp_outputDerivativeSize (outputDerivativeSize_ p);
          nvp_constraints (constraints_ p); nvp_weak].
  split; [|split].
  - unfold serialize, serialize_save. cbn [is_saving]. rewrite Htp.
    unfold archive_put. cbn [is_saving content].
    repeat rewrite <- app_assoc. reflexivity.
  - reflexivity.
  - intros Htp0 Hpr. unfold serialize, serialize_load, archive_get, set_timeRange.
    cbn. rewrite Htp0. destruct p as [pr tr n nd c tpp].
    cbn in *. subst. reflexivity.
Qed.

Lemma serialize_roundtrip_witness :
  timeParam_ (base_of (Sample.segment (Some Sample.always) None)) = None
  /\ exists saved,
       serialize (base_of (Sample.segment (Some Sample.always) None))
                 {| is_saving := true; content := [] |}
       = Ret (base_of (Sample.segment (Some Sample.always) None),
              {| is_saving := true; content := saved |})
       /\ serialize (Path_ctor (0, 0) 0 0 None)
                    {| is_saving := false; content := saved |}
          = Ret (base_of (Sample.segment (Some Sample.always) None),
                 {| is_saving := false; content := [] |}).
Proof.
  split; [reflexivity|].
  destruct (serialize_roundtrip
              (base_of (Sample.segment (Some Sample.always) None))
              (Path_ctor (0, 0) 0 0 None) [] [] eq_refl)
    as [saved (Hsave & _ & Hload)].
  exists saved. split; [exact Hsave|].
  rewrite app_nil_r in Hload. exact (Hload eq_refl eq_refl).
Defined.

(** ** More on the boundary velocities of a Hermite path *)

Lemma vzip_length (f : Q -> Q -> Q) (a b : vector_t) :
  List.length a = List.length b -> List.length (vzip f a b) = List.length a.
Proof.
  revert b. induction a as [|x a IH]; intros [|y b]; simpl; intros H;
    try discriminate; [reflexivity|].
  f_equal. apply IH. now injection H.
Qed.

Lemma set_row_length (i : nat) (v : vector_t) (m : list vector_t) :
  List.length (set_row i v m) = List.length m.
Proof.
  revert i. induction m as [|r m IH]; intros [|i]; simpl; auto.
Qed.

Lemma set_row_twice (i : nat) (u v : vector_t) (m : list vector_t) :
  set_row i v (set_row i u m) = set_row i v m.
Proof.
  revert i. induction m as [|r m IH]; intros [|i]; simpl; try reflexivity.
  now rewrite IH.
Qed.

Lemma Forall_set_row (P : vector_t -> Prop) (i : nat) (v : vector_t)
  (m : list vector_t) :
  P v -> Forall P m -> Forall P (set_row i v m).
Proof.
  intros Hv. revert i. induction m as [|r m IH]; intros [|i] Hm; simpl;
    inversion Hm; subst; constructor; auto.
Qed.

Lemma Hermite_wf_row_length (nv : nat) (h : Hermite) (i : nat) :
  Hermite_wf nv h -> (i < 4)%nat -> List.length (row h i) = nv.
Proof.
  intros (H4 & Hrows & _) Hi. unfold row.
  assert (Hin : In (nth i (parameters_ h) []) (parameters_ h))
    by (apply nth_In; lia).
  rewrite Forall_forall in Hrows. now apply Hrows.
Qed.

Lemma v1_formula_roundtrip (w r3 : vector_t) (L : Q) :
  List.length r3 = List.length w ->
  ~ L == 0 ->
  veq (vdiv (lscale 3 (vsub r3 (vsub r3 (vscale (vdiv w 3) L)))) L) w.
Proof.
  intros Hlen HL. revert r3 Hlen.
  induction w as [|x w IH]; intros [|z r3] Hlen; simpl in *;
    try discriminate; [constructor|].
  constructor.
  - field. exact HL.
  - apply IH. now injection Hlen.
Qed.

Lemma set_v0_rows (h : Hermite) (w : vector_t) :
  row (set_v0 h w) 0 = row h 0
  /\ row (set_v0 h w) 2 = row h 2
  /\ row (set_v0 h w) 3 = row h 3.
Proof.
  unfold row, set_v0; cbn [parameters_].
  repeat split; now apply nth_set_row_other.
Qed.

Lemma set_v1_rows (h : Hermite) (w : vector_t) :
  row (set_v1 h w) 0 = row h 0
  /\ row (set_v1 h w) 1 = row h 1
  /\ row (set_v1 h w) 3 = row h 3.
Proof.
  unfold row, set_v1; cbn [parameters_].
  repeat split; now apply nth_set_row_other.
Qed.

(** X8 -- Setting one boundary velocity leaves the other getter's result
    untouched, and a second call of a setter overwrites the first. *)
Theorem velocity_setters_independent (h : Hermite) (a b : vector_t) :
  v1 (set_v0 h a) = v1 h
  /\ v0 (set_v1 h a) = v0 h
  /\ set_v0 (set_v0 h a) b = set_v0 h b
  /\ set_v1 (set_v1 h a) b = set_v1 h b.
Proof.
  destruct (set_v0_rows h a) as (_ & H02 & H03).
  destruct (set_v1_rows h a) as (H10 & H11 & H13).
  split; [|split; [|split]].
  - unfold v1. now rewrite H02, H03.
  - unfold v0. now rewrite H10, H11.
  - unfold set_v0 at 1 3. cbn [hermite_base init_ end_].
    f_equal. unfold set_v0 at 1. cbn [parameters_].
    apply set_row_twice.
  - unfold set_v1 at 1 3. cbn [hermite_base init_ end_].
    f_equal. rewrite H13. unfold set_v1 at 1. cbn [parameters_].
    apply set_row_twice.
Qed.

(** X9 -- The setters keep the shape of the control points: four rows of
    [nv] coefficients with a zero first row remain so when a velocity of
    [nv] coefficients is set, and neither the end configurations nor the
    time range change. *)
Theorem velocity_setters_preserve_wf (nv : nat) (h : Hermite) (w : vector_t) :
  Hermite_wf nv h ->
  List.length w = nv ->
  Hermite_wf nv (set_v0 h w)
  /\ Hermite_wf nv (set_v1 h w)
  /\ (init_ (set_v0 h w), end_ (set_v0 h w), hermite_base (set_v0 h w))
     = (init_ h, end_ h, hermite_base h)
  /\ (init_ (set_v1 h w), end_ (set_v1 h w), hermite_base (set_v1 h w))
     = (init_ h, end_ h, hermite_base h).
Proof.
  intros Hwf Hlen.
  pose proof (Hermite_wf_row_length nv h 3 Hwf ltac:(lia)) as H3.
  destruct Hwf as (H4 & Hrows & Hz).
  split; [|split; [|split; reflexivity]].
  - split; [|split].
    + unfold set_v0; cbn [parameters_]. now rewrite set_row_length.
    + unfold set_v0; cbn [parameters_]. apply Forall_set_row; [|exact Hrows].
      unfold vscale, vdiv. now rewrite !length_map.
    + now rewrite (proj1 (set_v0_rows h w)).
  - split; [|split].
    + unfold set_v1; cbn [parameters_]. now rewrite set_row_length.
    + unfold set_v1; cbn [parameters_]. apply Forall_set_row; [|exact Hrows].
      unfold vsub. rewrite vzip_length; [exact H3|].
      unfold vscale, vdiv. rewrite !length_map. congruence.
    + now rewrite (proj1 (set_v1_rows h w)).
Qed.

Lemma velocity_setters_preserve_wf_witness :
  Hermite_wf 1 (Sample.hermite None [0] [1] (0, 2))
  /\ Hermite_wf 1 (set_v0 (Sample.hermite None [0] [1] (0, 2)) [3])
  /\ Hermite_wf 1 (set_v1 (Sample.hermite None [0] [1] (0, 2)) [3]).
Proof.
  assert (Hwf : Hermite_wf 1 (Sample.hermite None [0] [1] (0, 2))).
  { repeat split; simpl; repeat constructor. }
  pose proof (velocity_setters_preserve_wf 1
                (Sample.hermite None [0] [1] (0, 2)) [3] Hwf eq_refl) as H.
  split; [exact Hwf|]. split; [exact (proj1 H) | exact (proj1 (proj2 H))].
Defined.

(** X10 -- After both boundary velocities have been set, as [recurse] does
    for each child, both getters return what was set, and the cached length
    is the recomputed one: the time range having a non-zero length. *)
Theorem with_velocities_getters (E : Collaborators) (nv : nat) (h : Hermite)
  (a b : vector_t) :
  Hermite_wf nv h ->
  List.length a = nv ->
  List.length b = nv ->
  ~ Hermite_span h == 0 ->
  (exists ra, v0 (with_velocities E h a b) = Ret ra /\ veq ra a)
  /\ (exists rb, v1 (with_velocities E h a b) = Ret rb /\ veq rb b)
  /\ hermiteLength_ (with_velocities E h a b)
     = hermiteLengthOf E (set_v1 (set_v0 h a) b).
Proof.
  intros Hwf Ha Hb HL.
  pose proof (Hermite_wf_row_length nv h 0 Hwf ltac:(lia)) as Hr0.
  pose proof (Hermite_wf_row_length nv h 3 Hwf ltac:(lia)) as Hr3.
  destruct (set_v0_rows h a) as (H00 & _ & H03).
  destruct (set_v1_rows (set_v0 h a) b) as (H10 & H11 & H13).
  assert (Hrow1 : row (set_v0 h a) 1 = vscale (vdiv a 3) (Hermite_span h)).
  { unfold row, set_v0; cbn [parameters_]. apply nth_set_row_same.
    destruct Hwf as (H4 & _). lia. }
  assert (Hrow2 : row (set_v1 (set_v0 h a) b) 2
                  = vsub (row h 3) (vscale (vdiv b 3) (Hermite_span h))).
  { unfold row at 1. unfold set_v1; cbn [parameters_].
    rewrite nth_set_row_same.
    - now rewrite H03.
    - unfold set_v0; cbn [parameters_]. rewrite set_row_length.
      destruct Hwf as (H4 & _). lia. }
  split; [|split; [|reflexivity]].
  - unfold v0, with_velocities, computeHermiteLength, row at 1 2.
    cbn [parameters_ hermite_base].
    change (nth 1 (parameters_ (set_v1 (set_v0 h a) b)) [])
      with (row (set_v1 (set_v0 h a) b) 1).
    change (nth 0 (parameters_ (set_v1 (set_v0 h a) b)) [])
      with (row (set_v1 (set_v0 h a) b) 0).
    rewrite H11, H10, Hrow1, H00.
    change (Hermite_span _) with (Hermite_span h) at 2.
    rewrite vdiv_checked_nonzero by exact HL.
    eexists. split; [reflexivity|].
    apply v0_formula_roundtrip; [congruence | now destruct Hwf as (_ & _ & Hz) | exact HL].
  - unfold v1, with_velocities, computeHermiteLength, row at 1 2.
    cbn [parameters_ hermite_base].
    change (nth 3 (parameters_ (set_v1 (set_v0 h a) b)) [])
      with (row (set_v1 (set_v0 h a) b) 3).
    change (nth 2 (parameters_ (set_v1 (set_v0 h a) b)) [])
      with (row (set_v1 (set_v0 h a) b) 2).
    rewrite H13, H03, Hrow2.
    change (Hermite_span _) with (Hermite_span h) at 2.
    rewrite vdiv_checked_nonzero by exact HL.
    eexists. split; [reflexivity|].
    apply v1_formula_roundtrip; [congruence | exact HL].
Qed.

Lemma with_velocities_getters_witness :
  Hermite_wf 1 (Sample.hermite None [0] [4] (0, 2))
  /\ ~ Hermite_span (Sample.hermite None [0] [4] (0, 2)) == 0
  /\ (exists ra, v0 Sample.parent = Ret ra /\ veq ra [6])
  /\ (exists rb, v1 Sample.parent = Ret rb /\ veq rb [6]).
Proof.
  assert (Hwf : Hermite_wf 1 (Sample.hermite None [0] [4] (0, 2))).
  { repeat split; simpl; repeat constructor. }
  assert (HL : ~ Hermite_span (Sample.hermite None [0] [4] (0, 2)) == 0).
  { vm_compute. discriminate. }
  pose proof (with_velocities_getters Sample.E 1
                (Sample.hermite None [0] [4] (0, 2)) [6] [6]
                Hwf eq_refl eq_refl HL) as H.
  split; [exact Hwf|]. split; [exact HL|].
  split; [exact (proj1 H) | exact (proj1 (proj2 H))].
Defined.

(** X11 -- On a Hermite path of positive dimension whose time range has
    zero length both getters divide by zero: neither returns a velocity. *)
Theorem velocity_getters_zero_span (nv : nat) (h : Hermite) :
  Hermite_wf nv h ->
  (0 < nv)%nat ->
  Hermite_span h == 0 ->
  v0 h = Fault non_finite /\ v1 h = Fault non_finite.
Proof.
  intros Hwf Hnv HL.
  pose proof (Hermite_wf_row_length nv h 0 Hwf ltac:(lia)) as H0.
  pose proof (Hermite_wf_row_length nv h 1 Hwf ltac:(lia)) as H1.
  pose proof (Hermite_wf_row_length nv h 2 Hwf ltac:(lia)) as H2.
  pose proof (Hermite_wf_row_length nv h 3 Hwf ltac:(lia)) as H3.
  assert (Hne : forall r s, List.length r = nv -> List.length s = nv ->
                vdiv_checked (lscale 3 (vsub r s)) (Hermite_span h)
                = Fault non_finite).
  { intros r s Hr Hs. destruct r as [|x r]; [simpl in Hr; lia|].
    destruct s as [|y s]; [simpl in Hs; lia|].
    cbn. now rewrite (Qeq_eq_bool _ _ HL). }
  split; [apply Hne | apply Hne]; assumption.
Qed.

Lemma velocity_getters_zero_span_witness :
  Hermite_wf 1 (Sample.hermite None [0] [1] (1, 1))
  /\ v0 (Sample.hermite None [0] [1] (1, 1)) = Fault non_finite
  /\ v1 (Sample.hermite None [0] [1] (1, 1)) = Fault non_finite.
Proof.
  assert (Hwf : Hermite_wf 1 (Sample.hermite None [0] [1] (1, 1))).
  { repeat split; simpl; repeat constructor. }
  split; [exact Hwf|].
  apply (velocity_getters_zero_span 1 (Sample.hermite None [0] [1] (1, 1))
           Hwf).
  - lia.
  - reflexivity.
Defined.

(** ** What [recurse] appends *)

Lemma pv_paths_appendPath (pv : PathVector) (p : PathPtr_t) :
  pv_paths (appendPath pv p) = pv_paths pv ++ [p].
Proof. reflexivity. Qed.

Lemma pv_paths_concatenate (pv r : PathVector) :
  pv_paths (concatenate pv r) = pv_paths pv ++ pv_paths r.
Proof.
  unfold concatenate. generalize (pv_paths r) as l. intros l. revert pv.
  induction l as [|p l IH]; intros pv; simpl.
  - now rewrite app_nil_r.
  - rewrite IH, pv_paths_appendPath, <- app_assoc. reflexivity.
Qed.

Lemma chain_app (a b c : Configuration_t) (l1 l2 : list Hermite) :
  chain a l1 b -> chain b l2 c -> chain a (l1 ++ l2) c.
Proof.
  revert a. induction l1 as [|h l1 IH]; intros a H1 H2; simpl in *.
  - now subst.
  - destruct H1 as [Ha H1]. split; [exact Ha|]. now apply IH.
Qed.

(** The children of a bisection join the parent's end configurations
    through the midpoint. *)
Lemma recurse_children_ends (rev : revision) (E : Collaborators)
  (cs : option ConstraintSet) (path : Hermite) (q1 : Configuration_t)
  (left_ right_ : Hermite) :
  steer_connects rev E ->
  recurse_children rev E cs path q1 = Ret (left_, right_) ->
  init_ left_ = init_ path /\ end_ left_ = q1
  /\ init_ right_ = q1 /\ end_ right_ = end_ path.
Proof.
  intros Hsc H. unfold recurse_children in H.
  destruct (steer_child rev E cs (init_ path) q1 _) as [l0| | |] eqn:Hl;
    cbn [bind] in H; try discriminate.
  destruct (v0 path) as [pv0| | |]; cbn [bind] in H; try discriminate.
  destruct (steer_child rev E cs q1 (end_ path) _) as [r0| | |] eqn:Hr;
    cbn [bind] in H; try discriminate.
  destruct (v1 path) as [pv1| | |]; cbn [bind] in H; try discriminate.
  injection H as <- <-. cbn [computeHermiteLength set_v1 set_v0 init_ end_].
  destruct (Hsc _ _ _ _ _ Hl) as [Hli Hle].
  destruct (Hsc _ _ _ _ _ Hr) as [Hri Hre].
  auto.
Qed.

Lemma recurse_children_not_OutOfFuel (rev : revision) (E : Collaborators)
  (cs : option ConstraintSet) (path : Hermite) (q1 : Configuration_t) :
  recurse_children rev E cs path q1 <> OutOfFuel.
Proof.
  unfold recurse_children.
  assert (Hs : forall qa qb tr, steer_child rev E cs qa qb tr <> OutOfFuel).
  { intros qa qb tr. unfold steer_child.
    destruct (cast_Hermite _); discriminate. }
  assert (Hv : forall v k, vdiv_checked v k <> OutOfFuel).
  { intros v k. unfold vdiv_checked. destruct v; [discriminate|].
    destruct (Qeq_bool k 0); discriminate. }
  destruct (steer_child rev E cs (init_ path) q1 _) as [l0| | |] eqn:Hl;
    cbn [bind]; try discriminate; [|now apply Hs in Hl].
  destruct (v0 path) as [pv0| | |] eqn:Hv0; cbn [bind]; try discriminate;
    [|now apply Hv in Hv0].
  destruct (steer_child rev E cs q1 (end_ path) _) as [r0| | |] eqn:Hr;
    cbn [bind]; try discriminate; [|now apply Hs in Hr].
  destruct (v1 path) as [pv1| | |] eqn:Hv1; cbn [bind]; try discriminate.
  now apply Hv in Hv1.
Qed.

(** Everything [recurse] leaves in the output when it returns. *)
Lemma recurse_output (rev : revision) (E : Collaborators)
  (rh : RecursiveHermite) (cs : option ConstraintSet) (fuel : nat) :
  forall (path : Hermite) (proj : PathVector) (acceptThr : value_type)
         (b : bool) (proj' : PathVector),
    recurse fuel rev E rh cs path proj acceptThr = Ret (b, proj') ->
    exists added,
      pv_paths proj' = pv_paths proj ++ map HermitePtr added
      /\ Forall (fun h => hermiteLength_ h < acceptThr) added
      /\ (b = true -> added <> [])
      /\ (steer_connects rev E ->
          exists qe, chain (init_ path) added qe
                     /\ (b = true -> qe = end_ path)).
Proof.
  induction fuel as [|n IH]; intros path proj acceptThr b proj' H;
    [discriminate|].
  cbn [recurse] in H. unfold recurse_body in H.
  destruct (Qlt_bool (hermiteLength_ path) acceptThr) eqn:Hacc.
  { injection H as <- <-. exists [path]. split; [reflexivity|].
    split; [constructor; [now apply Qlt_bool_iff | constructor]|].
    split; [discriminate|].
    intros _. exists (end_ path). simpl. auto. }
  destruct (eval E path (recurse_t rev path)) as [q1 success].
  destruct success; cbn [negb] in H.
  2:{ injection H as <- <-. exists []. rewrite app_nil_r.
      split; [reflexivity|]. split; [constructor|].
      split; [discriminate|].
      intros _. exists (init_ path). split; [reflexivity | discriminate]. }
  destruct (recurse_children rev E cs path q1) as [[left_ right_]| | |] eqn:Hch;
    cbn [bind] in H; try discriminate.
  destruct (exceeds_stopThr rh path left_).
  { injection H as <- <-. exists []. rewrite app_nil_r.
    split; [reflexivity|]. split; [constructor|].
    split; [discriminate|].
    intros _. exists (init_ path). split; [reflexivity | discriminate]. }
  destruct (recurse n rev E rh cs left_ proj acceptThr)
    as [[okl proj1]| | |] eqn:Hl; cbn [bind] in H; try discriminate.
  destruct (IH _ _ _ _ _ Hl) as (addedL & HpL & HfL & HnL & HcL).
  assert (Hleft_only :
            forall b0, b0 = false ->
              exists added,
                pv_paths proj1 = pv_paths proj ++ map HermitePtr added
                /\ Forall (fun h => hermiteLength_ h < acceptThr) added
                /\ (b0 = true -> added <> [])
                /\ (steer_connects rev E ->
                    exists qe, chain (init_ path) added qe
                               /\ (b0 = true -> qe = end_ path))).
  { intros b0 ->. exists addedL. split; [exact HpL|]. split; [exact HfL|].
    split; [discriminate|].
    intros Hsc. destruct (HcL Hsc) as (qe & Hc & _).
    destruct (recurse_children_ends rev E cs path q1 left_ right_ Hsc Hch)
      as (Hli & _).
    exists qe. rewrite <- Hli. split; [exact Hc | discriminate]. }
  destruct okl; cbn [negb] in H.
  2:{ injection H as <- <-. now apply Hleft_only. }
  destruct (exceeds_stopThr rh path right_); cbn [orb] in H.
  { injection H as <- <-. now apply Hleft_only. }
  destruct (recurse n rev E rh cs right_ proj1 acceptThr)
    as [[okr proj2]| | |] eqn:Hr; cbn [bind] in H; try discriminate.
  destruct (IH _ _ _ _ _ Hr) as (addedR & HpR & HfR & HnR & HcR).
  assert (Hboth :
            exists added,
              pv_paths proj2 = pv_paths proj ++ map HermitePtr added
              /\ Forall (fun h => hermiteLength_ h < acceptThr) added
              /\ (okr = true -> added <> [])
              /\ (steer_connects rev E ->
                  exists qe, chain (init_ path) added qe
                             /\ (okr = true -> qe = end_ path))).
  { exists (addedL ++ addedR).
    split; [rewrite HpR, HpL, map_app, app_assoc; reflexivity|].
    split; [now apply Forall_app|].
    split.
    - intros _ Hnil. apply app_eq_nil in Hnil. now apply (HnL eq_refl).
    - intros Hsc.
      destruct (recurse_children_ends rev E cs path q1 left_ right_ Hsc Hch)
        as (Hli & Hle & Hri & Hre).
      destruct (HcL Hsc) as (qL & HchainL & HqL).
      destruct (HcR Hsc) as (qR & HchainR & HqR).
      exists qR. split.
      + rewrite <- Hli. apply chain_app with (b := qL); [exact HchainL|].
        rewrite (HqL eq_refl), Hle, <- Hri. exact HchainR.
      + intros Hok. rewrite (HqR Hok). exact Hre. }
  destruct okr; cbn [negb] in H; injection H as <- <-; exact Hboth.
Qed.

(** X12 -- Whatever [recurse] returns, the output holds the pieces it held
    before, followed by Hermite pieces whose [hermiteLength] is below the
    acceptance threshold; when it returns [true] at least one piece was
    added. *)
Theorem recurse_appends_accepted_pieces (rev : revision) (E : Collaborators)
  (rh : RecursiveHermite) (cs : option ConstraintSet) (fuel : nat)
  (path : Hermite) (proj : PathVector) (acceptThr : value_type)
  (b : bool) (proj' : PathVector) :
  recurse fuel rev E rh cs path proj acceptThr = Ret (b, proj') ->
  exists added,
    pv_paths proj' = pv_paths proj ++ map HermitePtr added
    /\ Forall (fun h => hermiteLength_ h < acceptThr) added
    /\ (b = true -> added <> []).
Proof.
  intros H.
  destruct (recurse_output rev E rh cs fuel path proj acceptThr b proj' H)
    as (added & Hp & Hf & Hn & _).
  exists added. auto.
Qed.

Lemma recurse_appends_accepted_pieces_witness :
  exists proj' added,
    recurse 6 RevA Sample.E Sample.projector None Sample.parent
            (PathVector_create 1 1) 1 = Ret (true, proj')
    /\ pv_paths proj' = [] ++ map HermitePtr added
    /\ Forall (fun h => hermiteLength_ h < 1) added.
Proof.
  eexists.
  destruct (recurse_appends_accepted_pieces RevA Sample.E Sample.projector
              None 6 Sample.parent (PathVector_create 1 1) 1 true _ eq_refl)
    as (added & Hp & Hf & _).
  exists added. split; [reflexivity|]. split; [exact Hp | exact Hf].
Defined.

(** X13 -- With a steering method that joins the configurations it is
    given, the pieces added by [recurse] are continuous: they start at the
    initial configuration of the piece being subdivided, each starts where
    the previous one ends, and when [recurse] returns [true] the last one
    ends at the piece's end configuration. *)
Theorem recurse_pieces_continuous (rev : revision) (E : Collaborators)
  (rh : RecursiveHermite) (cs : option ConstraintSet) (fuel : nat)
  (path : Hermite) (proj : PathVector) (acceptThr : value_type)
  (b : bool) (proj' : PathVector) :
  steer_connects rev E ->
  recurse fuel rev E rh cs path proj acceptThr = Ret (b, proj') ->
  exists added qe,
    pv_paths proj' = pv_paths proj ++ map HermitePtr added
    /\ chain (init_ path) added qe
    /\ (b = true -> qe = end_ path).
Proof.
  intros Hsc H.
  destruct (recurse_output rev E rh cs fuel path proj acceptThr b proj' H)
    as (added & Hp & _ & _ & Hc).
  destruct (Hc Hsc) as (qe & Hchain & Hq).
  exists added, qe. auto.
Qed.

Lemma Sample_steer_connects (rev : revision) : steer_connects rev Sample.E.
Proof.
  intros cs qa qb tr h H. unfold steer_child in H.
  destruct rev; cbn in H; injection H as <-; split; reflexivity.
Qed.

Lemma recurse_pieces_continuous_witness :
  steer_connects RevC Sample.E
  /\ exists proj' added,
       recurse 6 RevC Sample.E Sample.projector None Sample.parent
               (PathVector_create 1 1) 1 = Ret (true, proj')
       /\ pv_paths proj' = [] ++ map HermitePtr added
       /\ chain (init_ Sample.parent) added (end_ Sample.parent).
Proof.
  split; [exact (Sample_steer_connects RevC)|].
  eexists.
  destruct (recurse_pieces_continuous RevC Sample.E Sample.projector
              None 6 Sample.parent (PathVector_create 1 1) 1 true _
              (Sample_steer_connects RevC) eq_refl)
    as (added & qe & Hp & Hc & Hq).
  exists added. split; [reflexivity|]. split; [exact Hp|].
  rewrite <- (Hq eq_refl). exact Hc.
Defined.

(** ** Depth of the recursion *)

(** Once an activation has an outcome with some bound on the nesting, it
    has the same outcome with a larger bound. *)
Lemma recurse_fuel_S (rev : revision) (E : Collaborators)
  (rh : RecursiveHermite) (cs : option ConstraintSet) (n : nat) :
  forall (path : Hermite) (proj : PathVector) (acceptThr : value_type),
    recurse n rev E rh cs path proj acceptThr <> OutOfFuel ->
    recurse (S n) rev E rh cs path proj acceptThr
    = recurse n rev E rh cs path proj acceptThr.
Proof.
  induction n as [|n IH]; intros path proj acceptThr Hne;
    [now contradiction Hne|].
  change (recurse (S (S n)) rev E rh cs path proj acceptThr)
    with (recurse_body rev E rh cs (recurse (S n) rev E rh cs)
            path proj acceptThr).
  change (recurse (S n) rev E rh cs path proj acceptThr)
    with (recurse_body rev E rh cs (recurse n rev E rh cs)
            path proj acceptThr) in Hne |- *.
  unfold recurse_body in Hne |- *.
  destruct (Qlt_bool (hermiteLength_ path) acceptThr); [reflexivity|].
  destruct (eval E path (recurse_t rev path)) as [q1 success].
  destruct (negb success); [reflexivity|].
  destruct (recurse_children rev E cs path q1) as [[left_ right_]| | |];
    cbn [bind] in Hne |- *; try reflexivity.
  destruct (exceeds_stopThr rh path left_); [reflexivity|].
  destruct (recurse n rev E rh cs left_ proj acceptThr)
    as [[okl proj1]| | |] eqn:Hl; cbn [bind] in Hne;
    try (now contradiction Hne);
    (rewrite IH by (rewrite Hl; discriminate)); rewrite Hl; cbn [bind];
    try reflexivity.
  destruct (negb okl); [reflexivity|].
  destruct (exceeds_stopThr rh path right_ || false); [reflexivity|].
  destruct (recurse n rev E rh cs right_ proj1 acceptThr)
    as [[okr proj2]| | |] eqn:Hr; cbn [bind] in Hne;
    try (now contradiction Hne);
    (rewrite IH by (rewrite Hr; discriminate)); rewrite Hr; reflexivity.
Qed.

Lemma recurse_fuel_le (rev : revision) (E : Collaborators)
  (rh : RecursiveHermite) (cs : option ConstraintSet) (n m : nat)
  (path : Hermite) (proj : PathVector) (acceptThr : value_type) :
  (n <= m)%nat ->
  recurse n rev E rh cs path proj acceptThr <> OutOfFuel ->
  recurse m rev E rh cs path proj acceptThr
  = recurse n rev E rh cs path proj acceptThr.
Proof.
  intros Hle Hne. induction Hle as [|m Hle IH]; [reflexivity|].
  rewrite recurse_fuel_S; [exact IH|]. rewrite IH. exact Hne.
Qed.

Lemma Qpower_nat_succ (a : Q) (k : nat) :
  a ^ Z.of_nat (S k) == a * a ^ Z.of_nat k.
Proof.
  rewrite Nat2Z.inj_succ. unfold Z.succ.
  rewrite Qpower_plus' by lia. simpl (a ^ 1). ring.
Qed.

(** With a time range that is not reduced to a point and a steering
    method that keeps it so, the children are built, or the steering step
    throws; the children have such a time range again. *)
Lemma recurse_children_spans (rev : revision) (E : Collaborators)
  (cs : option ConstraintSet) (path : Hermite) (q1 : Configuration_t) :
  steer_spans rev E ->
  ~ Hermite_span path == 0 ->
  (exists e, recurse_children rev E cs path q1 = Throw e)
  \/ (exists left_ right_,
        recurse_children rev E cs path q1 = Ret (left_, right_)
        /\ ~ Hermite_span left_ == 0 /\ ~ Hermite_span right_ == 0).
Proof.
  intros Hsteer Hspan. unfold recurse_children.
  assert (Hs : forall qa qb tr,
            (exists e, steer_child rev E cs qa qb tr = Throw e)
            \/ (exists h, steer_child rev E cs qa qb tr = Ret h)).
  { intros qa qb tr. unfold steer_child.
    destruct (cast_Hermite _); [right | left]; eexists; reflexivity. }
  assert (Hhalf : forall tr,
            tr = (fst (timeRange (hermite_base path)), recurse_t rev path)
            \/ tr = (recurse_t rev path, snd (timeRange (hermite_base path)))
            -> rev = RevA \/ ~ snd tr - fst tr == 0).
  { intros tr Htr. destruct rev; [now left | right | right];
      unfold Hermite_span in Hspan;
      (destruct Htr as [-> | ->]; cbn [fst snd]; intros H0; apply Hspan;
       unfold recurse_t, length, timeRange in *;
       destruct (timeRange_ (hermite_base path)) as [a b]; cbn [fst snd] in *;
       unfold value_type in *;
       [setoid_replace (b - a) with (2 * (a + (b - a) / 2 - a)) by field
       |setoid_replace (b - a) with (2 * (b - (a + (b - a) / 2))) by field];
       rewrite H0; reflexivity). }
  destruct (Hs (init_ path) q1
              (fst (timeRange (hermite_base path)), recurse_t rev path))
    as [[e He] | [l0 Hl0]]; rewrite ?He, ?Hl0; cbn [bind];
    [left; exists e; reflexivity|].
  unfold v0, v1. rewrite !vdiv_checked_nonzero by exact Hspan. cbn [bind].
  destruct (Hs q1 (end_ path)
              (recurse_t rev path, snd (timeRange (hermite_base path))))
    as [[e He] | [r0 Hr0]]; rewrite ?He, ?Hr0; cbn [bind];
    [left; exists e; reflexivity|].
  right. eexists; eexists. split; [reflexivity|]. split.
  - apply (Hsteer _ _ _ _ _ Hl0). apply Hhalf. now left.
  - apply (Hsteer _ _ _ _ _ Hr0). apply Hhalf. now right.
Qed.

Lemma recurse_depth_bound (rev : revision) (E : Collaborators)
  (rh : RecursiveHermite) (cs : option ConstraintSet)
  (acceptThr beta : value_type) (k : nat) :
  beta_ rh = Number beta ->
  0 <= beta ->
  steer_spans rev E ->
  forall (path : Hermite) (proj : PathVector),
    ~ Hermite_span path == 0 ->
    hermiteLength_ path * beta ^ Z.of_nat k < acceptThr ->
    ended (recurse (S k) rev E rh cs path proj acceptThr) = true.
Proof.
  intros Hrh Hbeta Hsteer. induction k as [|k IH]; intros path proj Hspan Hlen.
  - cbn [recurse]. unfold recurse_body.
    assert (Hacc : Qlt_bool (hermiteLength_ path) acceptThr = true).
    { apply Qlt_bool_iff. simpl in Hlen. lra. }
    rewrite Hacc. reflexivity.
  - change (recurse (S (S k)) rev E rh cs path proj acceptThr)
      with (recurse_body rev E rh cs (recurse (S k) rev E rh cs)
              path proj acceptThr).
    unfold recurse_body.
    destruct (Qlt_bool (hermiteLength_ path) acceptThr); [reflexivity|].
    destruct (eval E path (recurse_t rev path)) as [q1 success].
    destruct (negb success); [reflexivity|].
    destruct (recurse_children_spans rev E cs path q1 Hsteer Hspan)
      as [[e He] | (left_ & right_ & Hch & HspanL & HspanR)];
      rewrite ?He, ?Hch; cbn [bind]; [reflexivity|].
    assert (Hchild : forall child proj0,
              ~ Hermite_span child == 0 ->
              exceeds_stopThr rh path child = false ->
              ended (recurse (S k) rev E rh cs child proj0 acceptThr) = true).
    { intros child proj0 Hsp Hstop. apply IH; [exact Hsp|].
      unfold exceeds_stopThr in Hstop. rewrite Hrh in Hstop.
      cbn [double_scale double_ltb] in Hstop.
      apply Qlt_bool_false_iff in Hstop.
      pose proof (Qpower_0_le beta (Z.of_nat k) Hbeta) as Hpow.
      rewrite Qpower_nat_succ in Hlen.
      apply Qle_lt_trans
        with (y := hermiteLength_ path * (beta * beta ^ Z.of_nat k));
        [|exact Hlen].
      setoid_replace (hermiteLength_ path * (beta * beta ^ Z.of_nat k))
        with (beta * hermiteLength_ path * beta ^ Z.of_nat k)
        by ring.
      now apply Qmult_le_compat_r. }
    destruct (exceeds_stopThr rh path left_) eqn:HlStop; [reflexivity|].
    pose proof (Hchild left_ proj HspanL HlStop) as HL.
    destruct (recurse (S k) rev E rh cs left_ proj acceptThr)
      as [[okl proj1]| | |]; cbn [bind]; try discriminate; try reflexivity.
    destruct (negb okl); [reflexivity|].
    destruct (exceeds_stopThr rh path right_) eqn:HrStop; cbn [orb];
      [reflexivity|].
    pose proof (Hchild right_ proj1 HspanR HrStop) as HR.
    destruct (recurse (S k) rev E rh cs right_ proj1 acceptThr)
      as [[okr proj2]| | |]; cbn [bind]; try discriminate; try reflexivity.
    destruct (negb okr); reflexivity.
Qed.

Lemma ended_not_OutOfFuel {A : Type} (o : outcome A) :
  ended o = true -> o <> OutOfFuel.
Proof. intros H ->. discriminate. Qed.

Lemma Sample_steer_spans (rev : revision) : steer_spans rev Sample.E.
Proof.
  intros cs qa qb tr h H Htr. unfold steer_child in H.
  destruct rev; cbn in H; injection H as <-; unfold Hermite_span; cbn.
  - discriminate.
  - destruct Htr as [Htr | Htr]; [discriminate | exact Htr].
  - destruct Htr as [Htr | Htr]; [discriminate | exact Htr].
Qed.

(** X14 -- The contraction test bounds the recursion.  Let [beta] be a
    number, [beta >= 0], the time range of the piece not reduced to a
    point, and the steering method return pieces over such time ranges.
    If [hermiteLength * beta^k] is below the acceptance threshold then
    [recurse] ends within [k + 1] nested activations: it returns a flag
    and the pieces, or the steering step throws, and no larger bound on
    the nesting changes this outcome. *)
Theorem recurse_ends_under_contraction (rev : revision) (E : Collaborators)
  (rh : RecursiveHermite) (cs : option ConstraintSet) (path : Hermite)
  (proj : PathVector) (acceptThr beta : value_type) (k : nat) :
  beta_ rh = Number beta ->
  0 <= beta ->
  steer_spans rev E ->
  ~ Hermite_span path == 0 ->
  hermiteLength_ path * beta ^ Z.of_nat k < acceptThr ->
  exists result,
    ended result = true
    /\ forall fuel, (k < fuel)%nat ->
         recurse fuel rev E rh cs path proj acceptThr = result.
Proof.
  intros Hrh Hbeta Hsteer Hspan Hlen.
  pose proof (recurse_depth_bound rev E rh cs acceptThr beta k Hrh Hbeta
                Hsteer path proj Hspan Hlen) as Hend.
  exists (recurse (S k) rev E rh cs path proj acceptThr).
  split; [exact Hend|].
  intros fuel Hk. apply recurse_fuel_le; [lia|].
  now apply ended_not_OutOfFuel.
Qed.

Lemma recurse_ends_under_contraction_witness :
  beta_ Sample.projector = Number (6 # 10)
  /\ 0 <= 6 # 10
  /\ steer_spans RevA Sample.E
  /\ ~ Hermite_span Sample.skewed == 0
  /\ hermiteLength_ Sample.skewed * (6 # 10) ^ Z.of_nat 3 < 1
  /\ exists result,
       ended result = true
       /\ forall fuel, (3 < fuel)%nat ->
            recurse fuel RevA Sample.E Sample.projector None Sample.skewed
                    (PathVector_create 1 1) 1 = result.
Proof.
  assert (Hb : 0 <= 6 # 10) by discriminate.
  assert (Hs : ~ Hermite_span Sample.skewed == 0) by discriminate.
  assert (Hl : hermiteLength_ Sample.skewed * (6 # 10) ^ Z.of_nat 3 < 1)
    by reflexivity.
  split; [reflexivity|]. split; [exact Hb|].
  split; [exact (Sample_steer_spans RevA)|].
  split; [exact Hs|]. split; [exact Hl|].
  exact (recurse_ends_under_contraction RevA Sample.E Sample.projector None
           Sample.skewed (PathVector_create 1 1) 1 (6 # 10) 3 eq_refl Hb
           (Sample_steer_spans RevA) Hs Hl).
Defined.

(** ** What [project] and [impl_apply] return *)

Lemma project_loop_output (E : Collaborators) (rev : revision)
  (rh : RecursiveHermite) (cs : option ConstraintSet) (fuel : nat)
  (outSize outDerivSize : size_type) (thr : value_type)
  (ps : list (option Hermite)) :
  forall (res : PathVector) (b : bool) (res' : PathVector),
    project_loop E (recurse fuel rev E rh cs) outSize outDerivSize thr ps res
    = Ret (b, res') ->
    exists added,
      pv_paths res' = pv_paths res ++ map HermitePtr added
      /\ Forall (fun h => hermiteLength_ h < thr) added.
Proof.
  induction ps as [|p ps IH]; intros res b res' H; simpl in H.
  - injection H as <- <-. exists []. rewrite app_nil_r. auto.
  - destruct p as [p|]; cbn [deref bind] in H; [|discriminate].
    destruct (Qlt_bool (hermiteLengthOf E p) thr) eqn:Hacc.
    + destruct (IH _ _ _ H) as (added & Hp & Hf).
      exists (computeHermiteLength E p :: added). split.
      * rewrite Hp, pv_paths_appendPath, <- app_assoc. reflexivity.
      * constructor; [now apply Qlt_bool_iff | exact Hf].
    + destruct (recurse fuel rev E rh cs (computeHermiteLength E p)
                  (PathVector_create outSize outDerivSize) thr)
        as [[ok r]| | |] eqn:Hrec; cbn [bind] in H; try discriminate.
      destruct (recurse_output rev E rh cs fuel _ _ _ _ _ Hrec)
        as (addedR & HpR & HfR & _).
      cbn [PathVector_create pv_paths app] in HpR.
      destruct ok; cbn [negb] in H.
      * destruct (IH _ _ _ H) as (added & Hp & Hf).
        exists (addedR ++ added). split.
        -- rewrite Hp, pv_paths_concatenate, HpR, map_app, app_assoc.
           reflexivity.
        -- now apply Forall_app.
      * injection H as <- <-. exists addedR. split; [|exact HfR].
        now rewrite pv_paths_concatenate, HpR.
Qed.

(** X15 -- When [project] reaches the subdivision (the constraint set has a
    config projector of non-zero dimension), the divisor of the threshold
    is not zero ([M] in the revisions that divide by [M]) and [project]
    returns [true], the result is a path vector all of whose pieces are
    Hermite pieces with a [hermiteLength] below the acceptance threshold. *)
Theorem project_pieces_below_threshold (fuel : nat) (rev : revision)
  (E : Collaborators) (rh : RecursiveHermite) (path : PathPtr_t)
  (proj proj' : option PathPtr_t) (cs : ConstraintSet) (cp : ConfigProjector) :
  constraints (base_of path) = Some cs ->
  configProjector cs = Some cp ->
  dimension cp <> 0%Z ->
  rev = RevB \/ ~ M_ rh == 0 ->
  project fuel rev E rh path proj = Ret (true, proj') ->
  exists pv added,
    proj' = Some (PathVector_ptr pv)
    /\ pv_paths pv = map HermitePtr added
    /\ Forall (fun h => hermiteLength_ h < project_thr rev rh cp) added.
Proof.
  intros Hcs Hcp Hdim HM H. unfold project, project_with in H.
  rewrite Hcs in H.
  destruct (deref (Path_initial path)) as [qi| | |]; cbn [bind] in H;
    try discriminate.
  destruct (deref (Path_end path)) as [qe| | |]; cbn [bind] in H;
    try discriminate.
  destruct (negb (isSatisfied cs qe)); [discriminate|].
  rewrite Hcp in H. apply Z.eqb_neq in Hdim. rewrite Hdim in H.
  rewrite (proj2 (project_thr_checked_Ret rev rh cp _) (conj eq_refl HM)) in H.
  cbn [bind] in H.
  destruct (project_pieces rev E rh (Some cs) path) as [ps| | |];
    cbn [bind] in H; try discriminate.
  destruct (project_loop E (recurse fuel rev E rh (Some cs)) _ _ _ ps _)
    as [[success res]| | |] eqn:Hloop; cbn [bind] in H; try discriminate.
  destruct success.
  - injection H as <-.
    destruct (project_loop_output _ _ _ _ _ _ _ _ _ _ _ _ Hloop)
      as (added & Hp & Hf).
    exists res, added. split; [reflexivity|]. split; [exact Hp | exact Hf].
  - destruct (numberPaths res) as [|[|n]]; discriminate.
Qed.

Lemma project_pieces_below_threshold_witness :
  ~ M_ Sample.projector == 0
  /\ exists pv added,
    project 6 RevA Sample.E Sample.projector Sample.constrained_coarse None
    = Ret (true, Some (PathVector_ptr pv))
    /\ pv_paths pv = map HermitePtr added
    /\ Forall (fun h => hermiteLength_ h
                        < project_thr RevA Sample.projector Sample.cp_coarse) added.
Proof.
  assert (Hrun : exists proj',
             project 6 RevA Sample.E Sample.projector Sample.constrained_coarse None
             = Ret (true, proj')).
  { vm_compute. eexists. reflexivity. }
  assert (HM : ~ M_ Sample.projector == 0) by discriminate.
  split; [exact HM|].
  destruct Hrun as [proj' Hrun].
  destruct (project_pieces_below_threshold 6 RevA Sample.E Sample.projector
              Sample.constrained_coarse None proj' Sample.coarse Sample.cp_coarse
              eq_refl eq_refl ltac:(discriminate) (or_intror HM) Hrun)
    as (pv & added & Hp & Hpaths & Hf).
  exists pv, added. rewrite Hrun, Hp. auto.
Defined.

(** X16 -- [project] leaves the caller's pointer as it was only at the
    pre-check of the end configuration: when the end configuration
    satisfies the constraints and [project] returns, with either flag, the
    pointer has been assigned; when it does not, [project] returns [false]
    and the pointer is the caller's. *)
Theorem project_assigns_proj (fuel : nat) (rev : revision)
  (E : Collaborators) (rh : RecursiveHermite) (path : PathPtr_t)
  (proj proj' : option PathPtr_t) (b : bool) (cs : ConstraintSet)
  (qe : Configuration_t) :
  constraints (base_of path) = Some cs ->
  Path_end path = Some qe ->
  project fuel rev E rh path proj = Ret (b, proj') ->
  (isSatisfied cs qe = true -> proj' <> None)
  /\ (isSatisfied cs qe = false -> b = false /\ proj' = proj).
Proof.
  intros Hcs Hqe H. unfold project, project_with in H.
  rewrite Hcs, Hqe in H.
  destruct (deref (Path_initial path)) as [qi| | |]; cbn [bind deref] in H;
    try discriminate.
  destruct (isSatisfied cs qe); cbn [negb] in H.
  2:{ injection H as <- <-. split; [discriminate | auto]. }
  split; [|discriminate]. intros _.
  destruct (configProjector cs) as [cp|]; [|injection H as <- <-; discriminate].
  destruct (dimension cp =? 0)%Z; [injection H as <- <-; discriminate|].
  destruct (project_thr_checked rev rh cp) as [thr| | |];
    cbn [bind] in H; try discriminate.
  destruct (project_pieces rev E rh (Some cs) path) as [ps| | |];
    cbn [bind] in H; try discriminate.
  destruct (project_loop E _ _ _ _ ps _) as [[success res]| | |];
    cbn [bind] in H; try discriminate.
  destruct success; [injection H as <- <-; discriminate|].
  unfold numberPaths, pathAtRank in H.
  destruct (pv_paths res) as [|p0 [|p1 rest]]; cbn in H;
    injection H as <- <-; discriminate.
Qed.

Lemma project_assigns_proj_witness :
  isSatisfied Sample.coarse [4] = true
  /\ exists b proj',
       project 6 RevA Sample.E Sample.projector Sample.constrained_coarse None
       = Ret (b, proj')
       /\ proj' <> None.
Proof.
  split; [reflexivity|].
  assert (Hrun : exists b proj',
             project 6 RevA Sample.E Sample.projector
                     Sample.constrained_coarse None = Ret (b, proj')).
  { vm_compute. do 2 eexists. reflexivity. }
  destruct Hrun as (b & proj' & Hrun).
  exists b, proj'. split; [exact Hrun|].
  exact (proj1 (project_assigns_proj 6 RevA Sample.E Sample.projector
                  Sample.constrained_coarse None proj' b Sample.coarse [4]
                  eq_refl eq_refl Hrun) eq_refl).
Defined.

Lemma chain_endpoints (bs : Path) (added : list Hermite)
  (a b : Configuration_t) :
  added <> [] ->
  chain a added b ->
  Path_initial (PathVectorPtr bs (map HermitePtr added)) = Some a
  /\ Path_end (PathVectorPtr bs (map HermitePtr added)) = Some b.
Proof.
  intros Hne Hc. split.
  - destruct added as [|h l]; [contradiction|]. destruct Hc as [Hi _].
    cbn. now rewrite Hi.
  - revert a Hc. induction added as [|h l IH]; intros a Hc; [contradiction|].
    destruct Hc as [_ Hc]. destruct l as [|h2 l].
    + cbn in *. now rewrite Hc.
    + specialize (IH ltac:(discriminate) (end_ h) Hc). exact IH.
Qed.

Lemma project_Hermite_endpoints (fuel : nat) (rev : revision)
  (E : Collaborators) (rh : RecursiveHermite) (p : Hermite)
  (proj proj' : option PathPtr_t) :
  steer_connects rev E ->
  project fuel rev E rh (HermitePtr p) proj = Ret (true, proj') ->
  exists pp, proj' = Some pp
             /\ Path_initial pp = Some (init_ p)
             /\ Path_end pp = Some (end_ p).
Proof.
  intros Hsc H. unfold project, project_with in H. cbn [base_of] in H.
  destruct (constraints (hermite_base p)) as [cs|].
  2:{ injection H as <-. eexists. split; [reflexivity|]. split; reflexivity. }
  cbn [Path_initial Path_end deref bind] in H.
  destruct (negb (isSatisfied cs (end_ p))); [discriminate|].
  destruct (configProjector cs) as [cp|].
  2:{ injection H as <-. eexists. split; [reflexivity|]. split; reflexivity. }
  destruct (dimension cp =? 0)%Z.
  { injection H as <-. eexists. split; [reflexivity|]. split; reflexivity. }
  destruct (project_thr_checked rev rh cp) as [thr| | |];
    cbn [bind] in H; try discriminate.
  cbn [project_pieces bind project_loop deref] in H.
  destruct (Qlt_bool (hermiteLength_ (computeHermiteLength E p)) thr).
  { cbn [bind] in H. injection H as <-. eexists. split; [reflexivity|].
    split; reflexivity. }
  destruct (recurse fuel rev E rh (Some cs) (computeHermiteLength E p) _ _)
    as [[ok r]| | |] eqn:Hrec; cbn [bind] in H; try discriminate.
  destruct ok; cbn [negb bind] in H.
  2:{ destruct (numberPaths _) as [|[|n]]; discriminate. }
  injection H as <-.
  destruct (recurse_output rev E rh (Some cs) fuel _ _ _ _ _ Hrec)
    as (added & Hp & _ & Hne & Hc).
  destruct (Hc Hsc) as (qe & Hchain & Hq).
  eexists. split; [reflexivity|].
  unfold PathVector_ptr. rewrite pv_paths_concatenate, Hp.
  cbn [PathVector_create pv_paths app].
  rewrite (Hq eq_refl) in Hchain.
  exact (chain_endpoints _ added _ _ (Hne eq_refl) Hchain).
Qed.

(** What [impl_apply] returns is what its first part computed. *)
Lemma impl_apply_result (fuel : nat) (rev : revision) (E : Collaborators)
  (rh : RecursiveHermite) (path : PathPtr_t) (proj : option PathPtr_t)
  (b : bool) (proj' : option PathPtr_t) :
  impl_apply (S fuel) rev E rh path proj = Ret (b, proj') ->
  match path with
  | PathVectorPtr pv paths =>
      '(success, res) <-
        impl_apply_loop (impl_apply fuel rev E rh) paths 0%nat None
          (PathVector_create (outputSize pv) (outputDerivativeSize pv)) ;;
      Ret (success, Some (PathVector_ptr res))
  | _ =>
      match constraints (base_of path) with
      | None => Ret (true, Some path)
      | Some cs =>
          match configProjector cs with
          | None => Ret (true, Some path)
          | Some _ => project fuel rev E rh path proj
          end
      end
  end = Ret (b, proj')
  /\ (rev = RevB -> exists pp, proj' = Some pp /\ checkPath pp = Ret tt).
Proof.
  intros H. cbn [impl_apply] in H. unfold impl_apply_loop.
  match type of H with
  | bind ?X _ = _ => destruct X as [[success pr]| | |]
  end; cbn [bind] in H; try discriminate.
  destruct rev.
  - injection H as <- <-. split; [reflexivity | discriminate].
  - destruct pr as [pp|]; cbn [deref bind] in H; [|discriminate].
    destruct (checkPath pp) as [[]| | |] eqn:Hcheck; cbn [bind] in H;
      try discriminate.
    injection H as <- <-. split; [reflexivity|].
    intros _. exists pp. auto.
  - injection H as <- <-. split; [reflexivity | discriminate].
Qed.

(** X17 -- For a Hermite input and a steering method that joins the
    configurations it is given, whenever [impl_apply] returns [true] the
    result is a path that starts at the input's initial configuration and
    ends at its end configuration: the assertions that close [impl_apply]
    hold on success. *)
Theorem impl_apply_Hermite_success_endpoints (fuel : nat) (rev : revision)
  (E : Collaborators) (rh : RecursiveHermite) (p : Hermite)
  (proj proj' : option PathPtr_t) :
  steer_connects rev E ->
  impl_apply (S fuel) rev E rh (HermitePtr p) proj = Ret (true, proj') ->
  exists pp, proj' = Some pp
             /\ Path_initial pp = Some (init_ p)
             /\ Path_end pp = Some (end_ p).
Proof.
  intros Hsc H. apply impl_apply_result in H. destruct H as [H _].
  cbn [base_of] in H.
  destruct (constraints (hermite_base p)) as [cs|].
  2:{ injection H as <-. eexists. split; [reflexivity|]. split; reflexivity. }
  destruct (configProjector cs) as [cp|].
  2:{ injection H as <-. eexists. split; [reflexivity|]. split; reflexivity. }
  now apply (project_Hermite_endpoints fuel rev E rh p proj proj' Hsc).
Qed.

Lemma impl_apply_Hermite_success_endpoints_witness :
  steer_connects RevA Sample.E
  /\ exists pp,
       impl_apply 7 RevA Sample.E Sample.projector Sample.constrained_coarse
                  None = Ret (true, Some pp)
       /\ Path_initial pp = Some [0]
       /\ Path_end pp = Some [4].
Proof.
  split; [exact (Sample_steer_connects RevA)|].
  assert (Hrun : exists proj',
             impl_apply 7 RevA Sample.E Sample.projector
                        Sample.constrained_coarse None = Ret (true, proj')).
  { vm_compute. eexists. reflexivity. }
  destruct Hrun as [proj' Hrun].
  destruct (impl_apply_Hermite_success_endpoints 6 RevA Sample.E
              Sample.projector _ None proj' (Sample_steer_connects RevA) Hrun)
    as (pp & Hp & Hi & He).
  exists pp. rewrite Hrun, Hp. auto.
Defined.

(** X18 -- The revision of [impl_apply] that ends with
    [proj->checkPath()] never returns an empty result pointer, nor a path
    whose end configurations fail the constraints: whenever it returns, the
    pointer holds a path that passes [checkPath]. *)
Theorem impl_apply_RevB_checked (fuel : nat) (E : Collaborators)
  (rh : RecursiveHermite) (path : PathPtr_t) (proj proj' : option PathPtr_t)
  (b : bool) :
  impl_apply fuel RevB E rh path proj = Ret (b, proj') ->
  exists pp, proj' = Some pp /\ checkPath pp = Ret tt.
Proof.
  intros H. destruct fuel as [|n]; [discriminate|].
  apply impl_apply_result in H. destruct H as [_ H]. now apply H.
Qed.

Lemma impl_apply_RevB_checked_witness :
  exists b pp,
    impl_apply 1 RevB Sample.E Sample.projector (Sample.segment None None) None
    = Ret (b, Some pp)
    /\ checkPath pp = Ret tt.
Proof.
  assert (Hrun : exists b proj',
             impl_apply 1 RevB Sample.E Sample.projector
                        (Sample.segment None None) None = Ret (b, proj')).
  { do 2 eexists. reflexivity. }
  destruct Hrun as (b & proj' & Hrun).
  destruct (impl_apply_RevB_checked 1 Sample.E Sample.projector _ None proj' b
              Hrun) as (pp & Hp & Hc).
  exists b, pp. rewrite Hrun, Hp. auto.
Defined.

(** ** [impl_apply] on a path vector *)

Lemma impl_apply_unconstrained_piece (n : nat) (rev : revision)
  (E : Collaborators) (rh : RecursiveHermite) (p : PathPtr_t)
  (part : option PathPtr_t) :
  unconstrained p ->
  impl_apply (S n) rev E rh p part = Ret (true, Some p).
Proof.
  intros Hu. unfold unconstrained in Hu.
  assert (Hcheck : checkPath p = Ret tt).
  { unfold checkPath. destruct p; try contradiction; now rewrite Hu. }
  destruct p; try contradiction; cbn [impl_apply]; rewrite Hu; cbn [bind];
    destruct rev; cbn [deref bind]; try rewrite Hcheck; reflexivity.
Qed.

Lemma fold_appendPath_paths (l : list PathPtr_t) (pv : PathVector) :
  pv_paths (fold_left appendPath l pv) = pv_paths pv ++ l.
Proof.
  revert pv. induction l as [|p l IH]; intros pv; simpl.
  - now rewrite app_nil_r.
  - rewrite IH, pv_paths_appendPath, <- app_assoc. reflexivity.
Qed.

Lemma fold_appendPath_constraints (l : list PathPtr_t) (pv : PathVector) :
  constraints_ (pv_base (fold_left appendPath l pv))
  = constraints_ (pv_base pv).
Proof.
  revert pv. induction l as [|p l IH]; intros pv; simpl; [reflexivity|].
  now rewrite IH.
Qed.

(** The loop over a run of unconstrained pieces appends them all and goes
    on with the rest; [part] is then the last of them. *)
Lemma impl_apply_loop_unconstrained (n : nat) (rev : revision)
  (E : Collaborators) (rh : RecursiveHermite) (l tail : list PathPtr_t) :
  Forall unconstrained l ->
  forall (i : nat) (part : option PathPtr_t) (res : PathVector),
    impl_apply_loop (impl_apply (S n) rev E rh) (l ++ tail) i part res
    = impl_apply_loop (impl_apply (S n) rev E rh) tail (i + List.length l)
        (match List.rev l with [] => part | p :: _ => Some p end)
        (fold_left appendPath l res).
Proof.
  induction 1 as [|p l Hp Hl IH]; intros i part res.
  - cbn [app List.length List.rev fold_left]. now rewrite Nat.add_0_r.
  - cbn [app impl_apply_loop].
    rewrite (impl_apply_unconstrained_piece n rev E rh p part Hp).
    cbn [bind negb deref]. fold (impl_apply_loop (impl_apply (S n) rev E rh)).
    rewrite IH. cbn [List.length fold_left List.rev].
    replace (S i + List.length l)%nat with (i + S (List.length l))%nat by lia.
    f_equal.
    destruct (List.rev l) as [|q r] eqn:Hrev; cbn [app]; [reflexivity|].
    reflexivity.
Qed.

(** X19 -- Applied to a path vector all of whose pieces are unconstrained,
    [impl_apply] returns [true] and a path vector made of the same pieces
    in the same order, in every revision. *)
Theorem impl_apply_PathVector_unconstrained (fuel : nat) (rev : revision)
  (E : Collaborators) (rh : RecursiveHermite) (b : Path)
  (paths : list PathPtr_t) (proj : option PathPtr_t) :
  Forall unconstrained paths ->
  exists pv,
    impl_apply (S (S fuel)) rev E rh (PathVectorPtr b paths) proj
    = Ret (true, Some (PathVector_ptr pv))
    /\ pv_paths pv = paths.
Proof.
  intros Hu.
  exists (fold_left appendPath paths
            (PathVector_create (outputSize b) (outputDerivativeSize b))).
  split; [|now rewrite fold_appendPath_paths].
  change (impl_apply (S (S fuel)) rev E rh (PathVectorPtr b paths) proj)
    with ('(success, pr) <-
            ('(success, res) <-
               impl_apply_loop (impl_apply (S fuel) rev E rh) paths 0%nat None
                 (PathVector_create (outputSize b) (outputDerivativeSize b)) ;;
             Ret (success, Some (PathVector_ptr res))) ;;
          match rev with
          | RevB => pp <- deref pr ;; _ <- checkPath pp ;; Ret (success, pr)
          | RevA | RevC => Ret (success, pr)
          end).
  rewrite <- (app_nil_r paths) at 1.
  rewrite (impl_apply_loop_unconstrained fuel rev E rh paths [] Hu).
  cbn [impl_apply_loop bind]. destruct rev; try reflexivity.
  cbn [deref bind]. unfold checkPath, PathVector_ptr, constraints.
  cbn [base_of]. rewrite fold_appendPath_constraints. reflexivity.
Qed.

Lemma impl_apply_PathVector_unconstrained_witness :
  Forall unconstrained [Sample.segment None None; HermitePtr Sample.parent]
  /\ exists pv,
       impl_apply 2 RevB Sample.E Sample.projector
         (PathVectorPtr (Path_ctor (0, 7) 1 1 None)
            [Sample.segment None None; HermitePtr Sample.parent]) None
       = Ret (true, Some (PathVector_ptr pv))
       /\ pv_paths pv = [Sample.segment None None; HermitePtr Sample.parent].
Proof.
  assert (Hu : Forall unconstrained
                 [Sample.segment None None; HermitePtr Sample.parent]).
  { repeat constructor. }
  split; [exact Hu|].
  exact (impl_apply_PathVector_unconstrained 0 RevB Sample.E Sample.projector
           (Path_ctor (0, 7) 1 1 None) _ None Hu).
Defined.




(** ** The candidate pieces of an interpolated path *)

Lemma at_index_inside (v : vector_t) (i : nat) :
  (i < List.length v)%nat -> exists x, at_index v i = Ret x.
Proof.
  intros H. unfold at_index.
  destruct (nth_error v i) as [x|] eqn:Hn; [now exists x|].
  apply nth_error_None in Hn. lia.
Qed.

Lemma at_index_outside (v : vector_t) (i : nat) :
  (List.length v <= i)%nat -> at_index v i = Fault out_of_range.
Proof.
  intros H. unfold at_index. apply nth_error_None in H. now rewrite H.
Qed.

Lemma interpolation_pieces_RevA (E : Collaborators) (rh : RecursiveHermite)
  (cs : option ConstraintSet) (rest : list (value_type * Configuration_t)) :
  forall ip0 iter,
    exists l, interpolation_pieces RevA E rh cs ip0 rest iter = Ret l
              /\ List.length l = List.length rest.
Proof.
  induction rest as [|ip1 rest IH]; intros ip0 iter; simpl.
  - exists []. auto.
  - destruct (IH ip1 (S iter)) as (tl & Htl & Hlen). rewrite Htl. cbn [bind].
    eexists. split; [reflexivity|]. simpl. now rewrite Hlen.
Qed.

Lemma interpolation_pieces_timed_inside (rev : revision) (E : Collaborators)
  (rh : RecursiveHermite) (cs : option ConstraintSet)
  (rest : list (value_type * Configuration_t)) :
  rev <> RevA ->
  forall ip0 iter,
    rest = [] \/ (iter + List.length rest < List.length (interpolationTimes_ rh))%nat ->
    exists l, interpolation_pieces rev E rh cs ip0 rest iter = Ret l
              /\ List.length l = List.length rest.
Proof.
  intros Hrev.
  induction rest as [|ip1 rest IH]; intros ip0 iter Hb; simpl.
  - exists []. auto.
  - destruct Hb as [Hb | Hb]; [discriminate|]. simpl in Hb.
    destruct (at_index_inside (interpolationTimes_ rh) iter ltac:(lia))
      as [a Ha].
    destruct (at_index_inside (interpolationTimes_ rh) (S iter) ltac:(lia))
      as [b Hb'].
    destruct (IH ip1 (S iter)) as (tl & Htl & Hlen).
    { right. lia. }
    destruct rev; try contradiction; rewrite Ha, Hb', Htl; cbn [bind];
      eexists; (split; [reflexivity|]); simpl; now rewrite Hlen.
Qed.

Lemma interpolation_pieces_timed_outside (rev : revision) (E : Collaborators)
  (rh : RecursiveHermite) (cs : option ConstraintSet)
  (rest : list (value_type * Configuration_t)) :
  rev <> RevA ->
  forall ip0 iter,
    rest <> [] ->
    (List.length (interpolationTimes_ rh) <= iter + List.length rest)%nat ->
    interpolation_pieces rev E rh cs ip0 rest iter = Fault out_of_range.
Proof.
  intros Hrev.
  induction rest as [|ip1 rest IH]; intros ip0 iter Hne Hb;
    [contradiction|].
  simpl in Hb. cbn [interpolation_pieces].
  destruct (Nat.le_gt_cases (List.length (interpolationTimes_ rh)) iter)
    as [Hout | Hin].
  { rewrite (at_index_outside _ _ Hout). destruct rev; try contradiction;
      reflexivity. }
  destruct (at_index_inside _ _ Hin) as [a Ha].
  destruct (Nat.le_gt_cases (List.length (interpolationTimes_ rh)) (S iter))
    as [Hout | Hin'].
  { rewrite Ha, (at_index_outside _ _ Hout). destruct rev; try contradiction;
      reflexivity. }
  destruct (at_index_inside _ _ Hin') as [b Hb'].
  assert (Hrest : rest <> []).
  { intros ->. simpl in Hb. lia. }
  rewrite Ha, Hb', (IH ip1 (S iter) Hrest ltac:(lia)).
  destruct rev; try contradiction; reflexivity.
Qed.

(** X21 -- The candidate pieces of an interpolated path.  In the revision
    without time ranges there is one piece per pair of consecutive
    interpolation points.  In the revisions with time ranges the same
    holds when [interpolationTimes_] has an entry for every interpolation
    point, and otherwise (with at least two points) the loop reads
    [interpolationTimes_] past its end: in particular for a projector built
    by the constructor that leaves [interpolationTimes_] empty. *)
Theorem interpolation_pieces_bounds (rev : revision) (E : Collaborators)
  (rh : RecursiveHermite) (cs : option ConstraintSet)
  (ip0 : value_type * Configuration_t)
  (rest : list (value_type * Configuration_t)) :
  (rev = RevA \/ (List.length rest < List.length (interpolationTimes_ rh))%nat ->
   exists l, interpolation_pieces rev E rh cs ip0 rest 0 = Ret l
             /\ List.length l = List.length rest)
  /\ (rev <> RevA -> rest <> [] ->
      (List.length (interpolationTimes_ rh) <= List.length rest)%nat ->
      interpolation_pieces rev E rh cs ip0 rest 0 = Fault out_of_range
      /\ forall b, project_pieces rev E rh cs (InterpolatedPathPtr b (ip0 :: rest))
                   = Fault out_of_range).
Proof.
  split.
  - intros [-> | Hb]; [apply interpolation_pieces_RevA|].
    destruct rev; [apply interpolation_pieces_RevA | |];
      apply interpolation_pieces_timed_inside; try discriminate; right; lia.
  - intros Hrev Hne Hb.
    pose proof (interpolation_pieces_timed_outside rev E rh cs rest Hrev ip0 0
                  Hne ltac:(lia)) as H.
    split; [exact H|]. intros b. exact H.
Qed.

Lemma interpolation_pieces_bounds_witness :
  (exists l,
     interpolation_pieces RevA Sample.E Sample.projector None (0, [0])
       [(1, [1]); (2, [3])] 0 = Ret l
     /\ List.length l = 2%nat)
  /\ interpolation_pieces RevC Sample.E Sample.projector None (0, [0])
       [(1, [1]); (2, [3])] 0 = Fault out_of_range.
Proof.
  pose proof (interpolation_pieces_bounds RevA Sample.E Sample.projector None
                (0, [0]) [(1, [1]); (2, [3])]) as HA.
  pose proof (interpolation_pieces_bounds RevC Sample.E Sample.projector None
                (0, [0]) [(1, [1]); (2, [3])]) as HC.
  split.
  - exact (proj1 HA (or_introl eq_refl)).
  - apply (proj2 HC); [discriminate | discriminate | simpl; lia].
Defined.
